(** * dbrx::PropVal (src/Props.h): a shallow embedding and its properties

    [PropVal] is the dynamically tagged property value of DatABriCxx: a
    discriminant [m_type] and a union [m_content] holding nothing, a bool,
    an [int64_t], a [double], a [Name], a [std::string], an [Array]
    (a [std::vector<PropVal>]), an [Indexed] ([Map<int64_t>]) or a [Struc]
    ([Map<Name, Name::CompareById>]).

    Conventions of the embedding:
    - [int64_t] and [int32_t] are [Z], the narrowing cast written out;
    - [double] is [spec_float] at binary64 ([prec = 53], [emax = 1024]);
      NaN payloads are not distinguished;
    - a [std::map] is the list of its entries in comparator order;
    - a thrown exception is [Throw], a read past the end of a range is an
      undefined comparison ([None]). *)

From Stdlib Require Import ZArith List String Bool Lia.
From Stdlib Require Import SpecFloat.
From Stdlib Require Import Sorted Permutation.
Import ListNotations.

Local Open Scope Z_scope.

(** ** Exceptions *)

Inductive exception : Type :=
| bad_cast
| out_of_range.

Inductive result (A : Type) : Type :=
| Ok (a : A)
| Throw (e : exception).

Arguments Ok {A} a.
Arguments Throw {A} e.

(** ** Fixed-width integers *)

Definition int64_min : Z := - 2 ^ 63.
Definition int64_max : Z := 2 ^ 63 - 1.
Definition int32_min : Z := - 2 ^ 31.
Definition int32_max : Z := 2 ^ 31 - 1.

Definition in_int64 (z : Z) : bool := (int64_min <=? z) && (z <=? int64_max).
Definition in_int32 (z : Z) : bool := (int32_min <=? z) && (z <=? int32_max).

(** [static_cast<int32_t>(value)] for an [int64_t]: the low 32 bits, read
    as a two's complement number. *)
Definition static_cast_int32 (value : Z) : Z :=
  (value + 2 ^ 31) mod 2 ^ 32 - 2 ^ 31.

(** [PropVal::castToInt32] *)
Definition castToInt32 (value : Z) : result Z :=
  let r := static_cast_int32 value in
  if r =? value then Ok r else Throw bad_cast.

(** [PropVal::castToBool] *)
Definition castToBool (value : Z) : result bool :=
  match value with
  | 0 => Ok false
  | 1 => Ok true
  | _ => Throw bad_cast
  end.

(** [b ? 1 : 0] *)
Definition bool_to_int (b : bool) : Z := if b then 1 else 0.

(** ** Doubles *)

Module Double.

Definition prec : Z := 53.
Definition emax : Z := 1024.

Definition valid (f : spec_float) : bool := valid_binary prec emax f.

(** The value of a finite double cut towards zero, as a mathematical
    integer; nothing for NaN and the infinities. *)
Definition truncate (f : spec_float) : option Z :=
  match f with
  | S754_zero _ => Some 0
  | S754_finite s m e =>
      Some (cond_Zopp s
              (match e with
               | Z0 => Zpos m
               | Zpos p => Zpos m * 2 ^ Zpos p
               | Zneg p => Zpos m / 2 ^ Zpos p
               end))
  | S754_infinity _ | S754_nan => None
  end.

(** The integer a double is, when it is a finite number without a
    fractional part. *)
Definition exact_integer (f : spec_float) : option Z :=
  match f with
  | S754_zero _ => Some 0
  | S754_finite s m e =>
      match e with
      | Z0 => Some (cond_Zopp s (Zpos m))
      | Zpos p => Some (cond_Zopp s (Zpos m * 2 ^ Zpos p))
      | Zneg p =>
          if Zpos m mod 2 ^ Zpos p =? 0
          then Some (cond_Zopp s (Zpos m / 2 ^ Zpos p))
          else None
      end
  | S754_infinity _ | S754_nan => None
  end.

(** [static_cast<int64_t>] is defined on the double: truncation yields
    a value that an [int64_t] holds. *)
Definition fits_int64 (f : spec_float) : bool :=
  match truncate f with
  | Some z => in_int64 z
  | None => false
  end.

(** Conversion of an [int64_t] to [double], rounding to nearest even. *)
Definition of_int64 (z : Z) : spec_float :=
  binary_normalize prec emax z 0 false.

(** [a == b] on doubles. *)
Definition eqb (a b : spec_float) : bool := SFeqb a b.

(** Either of the two zeros. *)
Definition is_zero (a : spec_float) : bool :=
  match a with S754_zero _ => true | _ => false end.

Definition one : spec_float := S754_finite false 4503599627370496 (-52).
Definition one_and_a_half : spec_float := S754_finite false 6755399441055744 (-52).

End Double.

(** ** std::mismatch *)

Section Mismatch.
Context {A B : Type}.
Variable equal : A -> B -> option bool.

(** [std::mismatch(first1, last1, first2).first == last1]: the first
    range is walked while the elements compare equal; the second range
    is read without a bound, and reading it past its end is undefined. *)
Fixpoint mismatch_at_end (l1 : list A) (l2 : list B) : option bool :=
  match l1 with
  | [] => Some true
  | x :: l1' =>
      match l2 with
      | [] => None
      | y :: l2' =>
          match equal x y with
          | Some true => mismatch_at_end l1' l2'
          | Some false => Some false
          | None => None
          end
      end
  end.
End Mismatch.

(** ** PropVal::Map<Key, Compare> *)

Module Map.
Section Map.
Context {Key V : Type}.
(** [Compare()(a, b)] *)
Variable comp : Key -> Key -> bool.
(** a default-constructed value, [PropVal()] *)
Variable dflt : V.

Definition Entries : Type := list (Key * V).

(** [m_entries->find(key)], as the value found *)
Fixpoint find (key : Key) (m : Entries) : option V :=
  match m with
  | [] => None
  | (k, v) :: m' =>
      if comp k key then find key m'
      else if comp key k then None
      else Some v
  end.

(** [hasMember] *)
Definition hasMember (key : Key) (m : Entries) : bool :=
  match find key m with Some _ => true | None => false end.

(** [at]: [m_entries->at(key)] *)
Definition at_ (key : Key) (m : Entries) : result V :=
  match find key m with
  | Some v => Ok v
  | None => Throw out_of_range
  end.

(** [operator[]]: [m_entries->operator[](key)]; the map afterwards and
    the value of the entry the returned reference denotes. *)
Fixpoint subscript (key : Key) (m : Entries) : Entries * V :=
  match m with
  | [] => ([(key, dflt)], dflt)
  | (k, v) :: m' =>
      if comp k key then
        let (m'', r) := subscript key m' in ((k, v) :: m'', r)
      else if comp key k then ((key, dflt) :: m, dflt)
      else (m, v)
  end.

(** Assignment through a reference to the entry of [key]. *)
Fixpoint assign (key : Key) (val : V) (m : Entries) : Entries :=
  match m with
  | [] => []
  | (k, v) :: m' =>
      if comp k key then (k, v) :: assign key val m'
      else if comp key k then m
      else (k, val) :: m'
  end.

(** [operator()(Key key, const PropVal &dflt)] *)
Definition call (key : Key) (d : V) (m : Entries) : result (Entries * V) :=
  if hasMember key m then
    match at_ key m with
    | Ok v => Ok (m, v)
    | Throw e => Throw e
    end
  else
    let (m', _) := subscript key m in
    Ok (assign key d m', d).

(** [operator()(Key key, PropVal &&dflt)]; the third component is the
    caller's [dflt] object afterwards: moved from when it was used. *)
Definition call_move (key : Key) (d : V) (m : Entries)
  : result (Entries * V * V) :=
  if hasMember key m then
    match at_ key m with
    | Ok v => Ok (m, v, d)
    | Throw e => Throw e
    end
  else
    let (m', _) := subscript key m in
    Ok (assign key d m', d, dflt).

(** [size], [empty] *)
Definition size (m : Entries) : nat := List.length m.
Definition empty (m : Entries) : bool :=
  match m with [] => true | _ :: _ => false end.

(** [m_entries->insert(entry)]: the entry goes to its place in key order
    unless the map already holds an equivalent key. *)
Fixpoint insert (key : Key) (val : V) (m : Entries) : Entries :=
  match m with
  | [] => [(key, val)]
  | (k, v) :: m' =>
      if comp k key then (k, v) :: insert key val m'
      else if comp key k then (key, val) :: m
      else m
  end.

(** [Map(std::initializer_list<Entry> init)]:
    [new Entries(init.begin(), init.end())], which inserts the entries
    one after the other. (Which of several entries with one key is kept
    the library leaves open; nothing below depends on it.) *)
Definition of_list (init : list (Key * V)) : Entries :=
  fold_left (fun m e => insert (fst e) (snd e) m) init [].

(** The entries are in strictly ascending key order. *)
Definition sorted (m : Entries) : Prop :=
  StronglySorted (fun a b => comp (fst a) (fst b) = true) m.

(** The first entry of a list of entries whose key is equivalent to
    [key]. *)
Fixpoint first_entry (key : Key) (init : list (Key * V)) : option V :=
  match init with
  | [] => None
  | (k, v) :: init' =>
      if comp k key || comp key k then first_entry key init' else Some v
  end.

End Map.
End Map.

(** ** PropVal *)

(** [PropVal::Type] *)
Inductive PropType : Type :=
| NONE | BOOL | INTEGER | REAL | NAME | STRING | ARRAY | INDEXED | STRUC.

(** Where a [PropVal*] obtained from a value points: into the value
    itself ([this] and beyond) or into the element storage of its array
    ([data()] and beyond). *)
Inductive PtrBase : Type :=
| this_object
| elements_data.

Record PropValPtr : Type := { ptr_base : PtrBase; ptr_offset : nat }.

Definition PtrBase_eqb (a b : PtrBase) : bool :=
  match a, b with
  | this_object, this_object | elements_data, elements_data => true
  | _, _ => false
  end.

Section Props.

(** [dbrx::Name], the interned symbol of Name.h, which is not among the
    sources: the type and its [operator==] are taken as given. *)
Variable Name : Type.
Variable Name_eqb : Name -> Name -> bool.

(** What [static_cast<int64_t>] yields for a double whose truncated
    value no [int64_t] holds (NaN, the infinities, magnitudes of 2^63
    and more). The language leaves it open; the hardware decides. *)
Variable fptosi_invalid : spec_float -> Z.

(** [m_type] and the active member of [m_content], as one sum. *)
#[warnings="-register-all"]
Inductive PropVal : Type :=
| VNone
| VBool (b : bool)
| VInteger (i : Z)
| VReal (r : spec_float)
| VName (n : Name)
| VString (s : string)
| VArray (a : list PropVal)
| VIndexed (m : list (Z * PropVal))
| VStruc (o : list (Name * PropVal)).

Definition Array : Type := list PropVal.
Definition Indexed : Type := Map.Entries (Key := Z) (V := PropVal).
Definition Struc : Type := Map.Entries (Key := Name) (V := PropVal).

(** [type()] *)
Definition type (v : PropVal) : PropType :=
  match v with
  | VNone => NONE
  | VBool _ => BOOL
  | VInteger _ => INTEGER
  | VReal _ => REAL
  | VName _ => NAME
  | VString _ => STRING
  | VArray _ => ARRAY
  | VIndexed _ => INDEXED
  | VStruc _ => STRUC
  end.

Definition PropType_eqb (a b : PropType) : bool :=
  match a, b with
  | NONE, NONE | BOOL, BOOL | INTEGER, INTEGER | REAL, REAL
  | NAME, NAME | STRING, STRING | ARRAY, ARRAY | INDEXED, INDEXED
  | STRUC, STRUC => true
  | _, _ => false
  end.

Definition isNone (v : PropVal) : bool := PropType_eqb (type v) NONE.
Definition isBool (v : PropVal) : bool := PropType_eqb (type v) BOOL.
Definition isInteger (v : PropVal) : bool := PropType_eqb (type v) INTEGER.
Definition isReal (v : PropVal) : bool :=
  PropType_eqb (type v) INTEGER || PropType_eqb (type v) REAL.
Definition isName (v : PropVal) : bool := PropType_eqb (type v) NAME.
Definition isString (v : PropVal) : bool := PropType_eqb (type v) STRING.
Definition isArray (v : PropVal) : bool := PropType_eqb (type v) ARRAY.
Definition isIndexed (v : PropVal) : bool := PropType_eqb (type v) INDEXED.
Definition isStruc (v : PropVal) : bool := PropType_eqb (type v) STRUC.

(** *** Accessors *)

Definition asBool (v : PropVal) : result bool :=
  match v with
  | VBool b => Ok b
  | VInteger i => castToBool i
  | _ => Throw bad_cast
  end.

Definition asInt (v : PropVal) : result Z :=
  match v with
  | VInteger i => castToInt32 i
  | VBool b => Ok (bool_to_int b)
  | _ => Throw bad_cast
  end.

Definition asLong64 (v : PropVal) : result Z :=
  match v with
  | VInteger i => Ok i
  | VBool b => Ok (bool_to_int b)
  | _ => Throw bad_cast
  end.

Definition asDouble (v : PropVal) : result spec_float :=
  match v with
  | VInteger i => Ok (Double.of_int64 i)
  | VReal r => Ok r
  | VBool b => Ok (Double.of_int64 (bool_to_int b))
  | _ => Throw bad_cast
  end.

Definition asArray (v : PropVal) : result Array :=
  match v with VArray a => Ok a | _ => Throw bad_cast end.

Definition asIndexed (v : PropVal) : result Indexed :=
  match v with VIndexed m => Ok m | _ => Throw bad_cast end.

Definition asStruc (v : PropVal) : result Struc :=
  match v with VStruc o => Ok o | _ => Throw bad_cast end.

(** *** Constructors *)

(** [PropVal()] *)
Definition PropVal_default : PropVal := VNone.
(** [PropVal(Bool)] *)
Definition PropVal_bool (value : bool) : PropVal := VBool value.
(** [PropVal(int32_t)] *)
Definition PropVal_int32 (value : Z) : PropVal := VInteger value.
(** [PropVal(Integer)] *)
Definition PropVal_int64 (value : Z) : PropVal := VInteger value.

(** [static_cast<int64_t>(value)] *)
Definition static_cast_int64 (value : spec_float) : Z :=
  match Double.truncate value with
  | Some z => if in_int64 z then z else fptosi_invalid value
  | None => fptosi_invalid value
  end.

(** [PropVal(double)] *)
Definition PropVal_double (value : spec_float) : PropVal :=
  let intVal := static_cast_int64 value in
  if Double.eqb (Double.of_int64 intVal) value
  then VInteger intVal
  else VReal value.

(** *** Equality *)

(** [operator==] of [std::pair<const Key, PropVal>]:
    [x.first == y.first && x.second == y.second]. *)
Definition Entry_eq {Key : Type} (key_eqb : Key -> Key -> bool)
    (equal : PropVal -> PropVal -> option bool)
    (x y : Key * PropVal) : option bool :=
  if key_eqb (fst x) (fst y) then equal (snd x) (snd y) else Some false.

(** Modelled from the spec: [PropVal::comparisonImpl], declared in
    Props.h and defined outside the sources. Symbol, text, sequence,
    indexed map and struc map require the identical tag and equal
    payloads; the payloads are compared with the [operator==] of their
    own types, for the containers [Array::operator==] and
    [Map::operator==] of Props.h. [equal] is [PropVal::operator==],
    which the containers use on their elements. *)
Definition comparisonImpl_with (equal : PropVal -> PropVal -> option bool)
    (v other : PropVal) : option bool :=
  match v with
  | VName n =>
      match other with VName n' => Some (Name_eqb n n') | _ => Some false end
  | VString s =>
      match other with VString s' => Some (String.eqb s s') | _ => Some false end
  | VArray a =>
      match other with
      | VArray b => mismatch_at_end equal a b
      | _ => Some false
      end
  | VIndexed m =>
      match other with
      | VIndexed m' => mismatch_at_end (Entry_eq Z.eqb equal) m m'
      | _ => Some false
      end
  | VStruc o =>
      match other with
      | VStruc o' => mismatch_at_end (Entry_eq Name_eqb equal) o o'
      | _ => Some false
      end
  | _ => Some false
  end.

(** [PropVal::operator==] *)
Fixpoint equals (v other : PropVal) {struct v} : option bool :=
  match v with
  | VNone => Some (PropType_eqb (type other) NONE)
  | VBool b =>
      match other with
      | VBool b' => Some (Bool.eqb b b')
      | VInteger i' => Some (bool_to_int b =? i')
      | _ => Some false
      end
  | VInteger i =>
      match other with
      | VInteger i' => Some (i =? i')
      | VBool b' => Some (i =? bool_to_int b')
      | _ => Some false
      end
  | VReal r =>
      match other with
      | VReal r' => Some (Double.eqb r r')
      | _ => Some false
      end
  | _ => comparisonImpl_with equals v other
  end.

Definition comparisonImpl : PropVal -> PropVal -> option bool :=
  comparisonImpl_with equals.

(** [Array::operator==] *)
Definition Array_eq (a other : Array) : option bool :=
  mismatch_at_end equals a other.

(** [Map::operator==] *)
Definition Map_eq {Key : Type} (key_eqb : Key -> Key -> bool)
    (m other : Map.Entries (Key := Key) (V := PropVal)) : option bool :=
  mismatch_at_end (Entry_eq key_eqb equals) m other.


(** *** Iteration *)

(** [p + 1] *)
Definition ptr_next (p : PropValPtr) : PropValPtr :=
  {| ptr_base := ptr_base p; ptr_offset := S (ptr_offset p) |}.

(** [p == q] on pointers *)
Definition ptr_eqb (p q : PropValPtr) : bool :=
  PtrBase_eqb (ptr_base p) (ptr_base q) && Nat.eqb (ptr_offset p) (ptr_offset q).

(** [Array::begin], [Array::end]: [data()] and [data() + size()] *)
Definition Array_begin (a : Array) : PropValPtr :=
  {| ptr_base := elements_data; ptr_offset := 0 |}.
Definition Array_end (a : Array) : PropValPtr :=
  {| ptr_base := elements_data; ptr_offset := List.length a |}.

(** [this] *)
Definition this : PropValPtr :=
  {| ptr_base := this_object; ptr_offset := 0 |}.

(** [PropVal::begin] *)
Definition begin_ (v : PropVal) : PropValPtr :=
  match v with
  | VArray a => Array_begin a
  | _ => this
  end.

(** [PropVal::end] *)
Definition end_ (v : PropVal) : PropValPtr :=
  match v with
  | VArray a => Array_end a
  | _ => this
  end.

(** [*p], for a pointer obtained from the value [v]: [this] is [v]
    itself, [data() + i] the [i]-th element of its array when there is
    one; any other pointer denotes no object. *)
Definition deref (v : PropVal) (p : PropValPtr) : option PropVal :=
  match ptr_base p with
  | this_object =>
      match ptr_offset p with O => Some v | S _ => None end
  | elements_data =>
      match v with
      | VArray a => nth_error a (ptr_offset p)
      | _ => None
      end
  end.

(** [for (p = first; p != last; ++p)], reading [*p] each round: the elements visited,
    in order; [None] when the loop reads a pointer that denotes no
    object or is still running after [fuel] rounds. *)
Fixpoint visit_range (fuel : nat) (v : PropVal) (first last : PropValPtr)
  : option (list PropVal) :=
  if ptr_eqb first last then Some []
  else
    match fuel with
    | O => None
    | S fuel' =>
        match deref v first with
        | None => None
        | Some x =>
            match visit_range fuel' v (ptr_next first) last with
            | None => None
            | Some xs => Some (x :: xs)
            end
        end
    end.

(** [for (auto &x : v)] *)
Definition range_for (fuel : nat) (v : PropVal) : option (list PropVal) :=
  visit_range fuel v (begin_ v) (end_ v).

(** *** Shapes of values *)

(** The tags below ARRAY: the value owns no container. *)
Definition scalar (v : PropVal) : bool :=
  match v with
  | VArray _ | VIndexed _ | VStruc _ => false
  | _ => true
  end.

(** No real anywhere in the value is a NaN. *)
Fixpoint nan_free (v : PropVal) : bool :=
  match v with
  | VReal S754_nan => false
  | VArray a => forallb nan_free a
  | VIndexed m => forallb (fun e => let '(_, x) := e in nan_free x) m
  | VStruc o => forallb (fun e => let '(_, x) := e in nan_free x) o
  | _ => true
  end.

(** *** The array *)

(** [Array::size], [Array::empty] *)
Definition Array_size (a : Array) : nat := List.length a.
Definition Array_empty (a : Array) : bool :=
  match a with [] => true | _ :: _ => false end.

(** [Array::push_back] *)
Definition Array_push_back (a : Array) (val : PropVal) : Array := a ++ [val].

(** [Array::at]: [m_elements->at(i)] *)
Definition Array_at (a : Array) (i : nat) : result PropVal :=
  match nth_error a i with
  | Some x => Ok x
  | None => Throw out_of_range
  end.

(** [Array::operator[]]: no bounds check; an index past the end is an
    undefined read. *)
Definition Array_subscript (a : Array) (i : nat) : option PropVal :=
  nth_error a i.

(** [Array::front], [Array::back]: undefined on an empty array. *)
Definition Array_front (a : Array) : option PropVal := nth_error a 0.
Definition Array_back (a : Array) : option PropVal :=
  match a with
  | [] => None
  | _ :: _ => nth_error a (List.length a - 1)
  end.

(** [Array::clear] *)
Definition Array_clear (a : Array) : Array := [].

(** [Array::resize]: cut to [n] elements, or filled up to [n] with
    default-constructed values. *)
Definition Array_resize (a : Array) (n : nat) : Array :=
  firstn n a ++ repeat VNone (n - List.length a).

(** *** Construction from a tag *)

(** [PropVal(Type type)], through [Content(Type type)]; [Name_default]
    is [Name()], the default symbol of Name.h. *)
Definition PropVal_type (Name_default : Name) (t : PropType) : PropVal :=
  match t with
  | NONE => VNone
  | BOOL => VBool false
  | INTEGER => VInteger 0
  | REAL => VReal (S754_zero false)
  | NAME => VName Name_default
  | STRING => VString EmptyString
  | ARRAY => VArray []
  | INDEXED => VIndexed []
  | STRUC => VStruc []
  end.

(** [PropVal::array()] *)
Definition array_empty (Name_default : Name) : PropVal :=
  PropVal_type Name_default ARRAY.

(** [PropVal::array(first, last)]: an empty array value, then one
    [push_back] for each element of the range. *)
Definition array_range (Name_default : Name) (elems : list PropVal)
  : result PropVal :=
  match asArray (PropVal_type Name_default ARRAY) with
  | Ok a => Ok (VArray (fold_left Array_push_back elems a))
  | Throw e => Throw e
  end.

(** [PropVal::array(std::initializer_list<PropVal>)] *)
Definition array_init (init : list PropVal) : PropVal := VArray init.

(** [PropVal::indexed()], [PropVal::indexed(init)] *)
Definition indexed_empty (Name_default : Name) : PropVal :=
  PropVal_type Name_default INDEXED.
Definition indexed_init (init : list (Z * PropVal)) : PropVal :=
  VIndexed (Map.of_list Z.ltb init).

(** The tags [operator==] settles itself, without [comparisonImpl]. *)
Definition compared_inline (v : PropVal) : bool :=
  match v with
  | VNone | VBool _ | VInteger _ | VReal _ => true
  | _ => false
  end.

(** * Properties *)

(** ** Tags and accessors *)

Lemma PropType_eqb_eq (a b : PropType) : PropType_eqb a b = true <-> a = b.
Proof. destruct a, b; simpl; split; intros H; try reflexivity; discriminate H. Qed.

(** C9: [isReal] answers true exactly on the tags INTEGER and REAL, so
    it is true on an integer-tagged value, whose tag is not REAL; each
    of the other eight tag predicates answers true exactly on its own
    tag. *)
Theorem isReal_integer_or_real (v : PropVal) :
  (isReal v = true <-> type v = INTEGER \/ type v = REAL)
  /\ (forall i : Z, isReal (VInteger i) = true /\ type (VInteger i) <> REAL)
  /\ (isNone v = true <-> type v = NONE)
  /\ (isBool v = true <-> type v = BOOL)
  /\ (isInteger v = true <-> type v = INTEGER)
  /\ (isName v = true <-> type v = NAME)
  /\ (isString v = true <-> type v = STRING)
  /\ (isArray v = true <-> type v = ARRAY)
  /\ (isIndexed v = true <-> type v = INDEXED)
  /\ (isStruc v = true <-> type v = STRUC).
Proof.
  unfold isReal, isNone, isBool, isInteger, isName, isString, isArray,
    isIndexed, isStruc.
  rewrite orb_true_iff, !PropType_eqb_eq.
  repeat split; try tauto.
  discriminate.
Qed.

Lemma castToBool_cases (i : Z) :
  castToBool i =
  if i =? 0 then Ok false else if i =? 1 then Ok true else Throw bad_cast.
Proof. destruct i as [|[p|p|]|p]; reflexivity. Qed.

(** C6: [asBool] returns the stored boolean of a boolean value; on an
    integer value it returns false for 0, true for 1 and throws
    [std::bad_cast] for every other integer; on every other tag it
    throws [std::bad_cast]. *)
Theorem asBool_spec :
  (forall b : bool, asBool (VBool b) = Ok b)
  /\ asBool (VInteger 0) = Ok false
  /\ asBool (VInteger 1) = Ok true
  /\ (forall i : Z, i <> 0 -> i <> 1 -> asBool (VInteger i) = Throw bad_cast)
  /\ (forall v : PropVal,
        type v <> BOOL -> type v <> INTEGER -> asBool v = Throw bad_cast).
Proof.
  split; [reflexivity|]. split; [reflexivity|]. split; [reflexivity|].
  split.
  - intros i H0 H1. simpl. rewrite castToBool_cases.
    destruct (Z.eqb_spec i 0) as [E|_]; [contradiction|].
    destruct (Z.eqb_spec i 1) as [E|_]; [contradiction|].
    reflexivity.
  - intros v Hb Hi. destruct v; try reflexivity.
    + now elim Hb.
    + now elim Hi.
Qed.

Lemma static_cast_int32_fixed (i : Z) :
  static_cast_int32 i = i <-> - 2 ^ 31 <= i <= 2 ^ 31 - 1.
Proof.
  unfold static_cast_int32. split; intros H.
  - pose proof (Z.mod_pos_bound (i + 2 ^ 31) (2 ^ 32) eq_refl). lia.
  - rewrite Z.mod_small; lia.
Qed.

Lemma castToInt32_cases (i : Z) :
  castToInt32 i = if in_int32 i then Ok i else Throw bad_cast.
Proof.
  unfold castToInt32, in_int32, int32_min, int32_max.
  destruct (static_cast_int32 i =? i) eqn:E.
  - apply Z.eqb_eq in E. rewrite E.
    apply static_cast_int32_fixed in E.
    replace (- 2 ^ 31 <=? i) with true by (symmetry; apply Z.leb_le; lia).
    replace (i <=? 2 ^ 31 - 1) with true by (symmetry; apply Z.leb_le; lia).
    reflexivity.
  - apply Z.eqb_neq in E. rewrite static_cast_int32_fixed in E.
    destruct (- 2 ^ 31 <=? i) eqn:E1; [|reflexivity].
    destruct (i <=? 2 ^ 31 - 1) eqn:E2; [|reflexivity].
    apply Z.leb_le in E1, E2. lia.
Qed.

(** C7: on an integer value [asInt] returns the value exactly when the
    value survives the cast to 32 bits, that is when it lies between
    -2^31 and 2^31 - 1, and throws [std::bad_cast] otherwise; on a
    boolean it returns 0 or 1. [asLong64] returns the stored integer
    unchanged. For 1 << 40, [asInt] throws and [asLong64] returns
    1 << 40. *)
Theorem asInt_asLong64_spec :
  (forall i : Z,
      (static_cast_int32 i = i -> asInt (VInteger i) = Ok i)
      /\ (static_cast_int32 i <> i -> asInt (VInteger i) = Throw bad_cast)
      /\ (static_cast_int32 i = i <-> - 2 ^ 31 <= i <= 2 ^ 31 - 1))
  /\ (forall b : bool, asInt (VBool b) = Ok (if b then 1 else 0))
  /\ (forall i : Z, asLong64 (VInteger i) = Ok i)
  /\ asInt (PropVal_int64 (Z.shiftl 1 40)) = Throw bad_cast
  /\ asLong64 (PropVal_int64 (Z.shiftl 1 40)) = Ok (Z.shiftl 1 40).
Proof.
  split; [|repeat split; reflexivity].
  intros i. split; [|split].
  - intros H. simpl. unfold castToInt32. cbv zeta.
    rewrite H, Z.eqb_refl. reflexivity.
  - intros H. simpl. unfold castToInt32. cbv zeta.
    apply Z.eqb_neq in H. rewrite H. reflexivity.
  - apply static_cast_int32_fixed.
Qed.

(** ** Iteration *)

Lemma ptr_eqb_data (i j : nat) :
  ptr_eqb {| ptr_base := elements_data; ptr_offset := i |}
          {| ptr_base := elements_data; ptr_offset := j |} = Nat.eqb i j.
Proof. reflexivity. Qed.

Lemma visit_range_elements (a : Array) (fuel k : nat) :
  (k <= List.length a)%nat ->
  (List.length a - k <= fuel)%nat ->
  visit_range fuel (VArray a)
    {| ptr_base := elements_data; ptr_offset := k |} (Array_end a)
  = Some (skipn k a).
Proof.
  revert k. induction fuel as [|fuel IH]; intros k Hk Hfuel.
  - assert (k = List.length a) as -> by lia.
    simpl. unfold Array_end. rewrite ptr_eqb_data, Nat.eqb_refl.
    rewrite skipn_all. reflexivity.
  - simpl. unfold Array_end at 1. rewrite ptr_eqb_data.
    destruct (Nat.eqb k (List.length a)) eqn:E.
    + apply Nat.eqb_eq in E. subst k. rewrite skipn_all. reflexivity.
    + apply Nat.eqb_neq in E.
      unfold deref. simpl ptr_base. simpl ptr_offset.
      destruct (nth_error a k) as [x|] eqn:Hx.
      * unfold ptr_next. simpl ptr_base. simpl ptr_offset.
        rewrite IH by lia.
        f_equal.
        clear - Hx. revert k Hx.
        induction a as [|y a IHa]; intros [|k] Hx; simpl in *;
          try discriminate.
        -- injection Hx as ->. reflexivity.
        -- apply IHa. exact Hx.
      * apply nth_error_None in Hx. lia.
Qed.

(** C10: for a value whose tag is not ARRAY, [begin()] and [end()] are
    the same pointer, [this], and a range loop over it visits nothing;
    for an ARRAY value they are [data()] and [data() + size()], every
    pointer between them denotes the element of that index, and a range
    loop visits exactly the elements, in order. *)
Theorem begin_end_spec (v : PropVal) :
  (type v <> ARRAY ->
     begin_ v = this /\ end_ v = this /\ deref v this = Some v
     /\ forall fuel : nat, range_for fuel v = Some [])
  /\ (forall a : Array,
        v = VArray a ->
        begin_ v = {| ptr_base := elements_data; ptr_offset := 0 |}
        /\ end_ v = {| ptr_base := elements_data; ptr_offset := List.length a |}
        /\ (forall i : nat,
              deref v {| ptr_base := elements_data; ptr_offset := i |}
              = nth_error a i)
        /\ forall fuel : nat,
             (List.length a <= fuel)%nat -> range_for fuel v = Some a).
Proof.
  split.
  - intros Hty.
    assert (begin_ v = this /\ end_ v = this) as [Hb He]
      by (destruct v; try (split; reflexivity); now elim Hty).
    repeat split; try assumption.
    intros fuel. unfold range_for. rewrite Hb, He.
    destruct fuel; reflexivity.
  - intros a ->. repeat split.
    intros fuel Hfuel. unfold range_for. simpl begin_. simpl end_.
    unfold Array_begin.
    rewrite visit_range_elements by lia. reflexivity.
Qed.

(** ** The ordered map *)

Section MapFacts.
Context {Key V : Type}.
Variable comp : Key -> Key -> bool.

(** [Compare] is a strict order, as [std::map] requires. *)
Hypothesis comp_irrefl : forall a, comp a a = false.
Hypothesis comp_trans :
  forall a b c, comp a b = true -> comp b c = true -> comp a c = true.

Lemma comp_asym (a b : Key) : comp a b = true -> comp b a = false.
Proof.
  intros H. destruct (comp b a) eqn:E; [|reflexivity].
  rewrite <- (comp_irrefl a). symmetry. exact (comp_trans a b a H E).
Qed.

Lemma subscript_present (dflt : V) (key : Key) (m : Map.Entries) (v : V) :
  Map.find comp key m = Some v -> Map.subscript comp dflt key m = (m, v).
Proof.
  induction m as [|[k v0] m IH]; simpl; intros H; [discriminate|].
  destruct (comp k key).
  - rewrite (IH H). reflexivity.
  - destruct (comp key k); [discriminate|]. congruence.
Qed.

Lemma subscript_absent_value (dflt : V) (key : Key) (m : Map.Entries) :
  Map.find comp key m = None -> snd (Map.subscript comp dflt key m) = dflt.
Proof.
  induction m as [|[k v0] m IH]; simpl; intros H; [reflexivity|].
  destruct (comp k key).
  - specialize (IH H). destruct (Map.subscript comp dflt key m). exact IH.
  - destruct (comp key k); [reflexivity|discriminate].
Qed.

Lemma subscript_find (dflt : V) (key : Key) (m : Map.Entries) :
  Map.find comp key m = None ->
  Map.find comp key (fst (Map.subscript comp dflt key m)) = Some dflt.
Proof.
  induction m as [|[k v0] m IH]; simpl; intros H.
  - rewrite comp_irrefl. reflexivity.
  - destruct (comp k key) eqn:E1.
    + specialize (IH H). destruct (Map.subscript comp dflt key m) as [m'' r].
      simpl in *. rewrite E1. exact IH.
    + destruct (comp key k) eqn:E2; [|discriminate].
      simpl. rewrite comp_irrefl. reflexivity.
Qed.

Lemma subscript_frame (dflt : V) (key key' : Key) (m : Map.Entries) :
  comp key key' = true \/ comp key' key = true ->
  Map.find comp key' (fst (Map.subscript comp dflt key m))
  = Map.find comp key' m.
Proof.
  intros Hne. induction m as [|[k v0] m IH]; simpl.
  - destruct Hne as [H|H]; rewrite H.
    + reflexivity.
    + rewrite (comp_asym _ _ H). reflexivity.
  - destruct (comp k key) eqn:E1.
    + destruct (Map.subscript comp dflt key m) as [m'' r]. simpl in *.
      rewrite IH. reflexivity.
    + destruct (comp key k) eqn:E2; [|reflexivity].
      simpl. destruct Hne as [H|H].
      * rewrite H. reflexivity.
      * rewrite (comp_asym _ _ H), H.
        rewrite (comp_asym _ _ (comp_trans _ _ _ H E2)).
        rewrite (comp_trans _ _ _ H E2). reflexivity.
Qed.

Lemma assign_subscript (dflt : V) (key : Key) (d : V) (m : Map.Entries) :
  Map.find comp key m = None ->
  Map.assign comp key d (fst (Map.subscript comp dflt key m))
  = fst (Map.subscript comp d key m).
Proof.
  induction m as [|[k v0] m IH]; simpl; intros H.
  - rewrite comp_irrefl. reflexivity.
  - destruct (comp k key) eqn:E1.
    + specialize (IH H).
      destruct (Map.subscript comp dflt key m) as [m1 r1].
      destruct (Map.subscript comp d key m) as [m2 r2].
      simpl in *. rewrite E1, IH. reflexivity.
    + destruct (comp key k) eqn:E2; [|discriminate].
      simpl. rewrite comp_irrefl. reflexivity.
Qed.

(** C8: on a key the map does not hold, [operator[]] inserts a
    default-constructed value under the key and returns it, leaving the
    other keys as they were, and [at] throws [std::out_of_range]; the
    two forms of [operator()] return the existing value and leave the
    map unchanged when the key is present, and otherwise insert the
    given default under the key and return it (the moved-from argument
    of the second form is left default-constructed). *)
Theorem Map_lookup_spec (dflt : V) (key : Key) (d : V) (m : Map.Entries) :
  (Map.hasMember comp key m = false ->
     (exists m',
         Map.subscript comp dflt key m = (m', dflt)
         /\ Map.find comp key m' = Some dflt
         /\ forall key', comp key key' = true \/ comp key' key = true ->
                         Map.find comp key' m' = Map.find comp key' m)
     /\ Map.at_ comp key m = Throw out_of_range
     /\ (exists m',
           Map.call comp dflt key d m = Ok (m', d)
           /\ Map.call_move comp dflt key d m = Ok (m', d, dflt)
           /\ Map.find comp key m' = Some d
           /\ forall key', comp key key' = true \/ comp key' key = true ->
                           Map.find comp key' m' = Map.find comp key' m))
  /\ (forall v : V,
        Map.find comp key m = Some v ->
        Map.hasMember comp key m = true
        /\ Map.subscript comp dflt key m = (m, v)
        /\ Map.at_ comp key m = Ok v
        /\ Map.call comp dflt key d m = Ok (m, v)
        /\ Map.call_move comp dflt key d m = Ok (m, v, d)).
Proof.
  split.
  - intros Hmem. unfold Map.hasMember in Hmem.
    destruct (Map.find comp key m) as [v|] eqn:Hfind; [discriminate|].
    split; [|split].
    + exists (fst (Map.subscript comp dflt key m)). split; [|split].
      * rewrite <- (subscript_absent_value dflt key m Hfind) at 3.
        destruct (Map.subscript comp dflt key m); reflexivity.
      * apply subscript_find, Hfind.
      * intros key' Hne. apply subscript_frame, Hne.
    + unfold Map.at_. rewrite Hfind. reflexivity.
    + exists (fst (Map.subscript comp d key m)).
      unfold Map.call, Map.call_move, Map.hasMember. rewrite Hfind.
      rewrite <- (assign_subscript dflt key d m Hfind).
      destruct (Map.subscript comp dflt key m) as [m1 r1] eqn:Hs.
      simpl fst.
      assert (Map.assign comp key d m1 = fst (Map.subscript comp d key m))
        as Hm1.
      { rewrite <- (assign_subscript dflt key d m Hfind), Hs. reflexivity. }
      rewrite Hm1. repeat split.
      * apply subscript_find, Hfind.
      * intros key' Hne. apply subscript_frame, Hne.
  - intros v Hfind.
    unfold Map.hasMember, Map.at_, Map.call, Map.call_move, Map.hasMember,
      Map.at_.
    rewrite Hfind. repeat split. apply subscript_present, Hfind.
Qed.

End MapFacts.

(** ** Equality *)

Section MismatchFacts.
Context {A B : Type}.
Variable equal : A -> B -> option bool.
Variable equal' : B -> A -> option bool.

Lemma mismatch_at_end_sym (l1 : list A) :
  Forall (fun x => forall y b1 b2,
              equal x y = Some b1 -> equal' y x = Some b2 -> b1 = b2) l1 ->
  forall (l2 : list B) (b1 b2 : bool),
    mismatch_at_end equal l1 l2 = Some b1 ->
    mismatch_at_end equal' l2 l1 = Some b2 ->
    b1 = b2.
Proof.
  induction 1 as [|x l1 Hx _ IH]; intros [|y l2] b1 b2; simpl;
    try congruence.
  destruct (equal x y) as [[|]|] eqn:E1; try discriminate;
    destruct (equal' y x) as [[|]|] eqn:E2; try discriminate;
    pose proof (Hx _ _ _ E1 E2) as Hb; try discriminate Hb.
  - apply IH.
  - congruence.
Qed.


End MismatchFacts.

Lemma mismatch_at_end_refl {A : Type} (equal : A -> A -> option bool)
    (l : list A) :
  Forall (fun x => equal x x = Some true) l ->
  mismatch_at_end equal l l = Some true.
Proof.
  induction 1 as [|x l Hx _ IH]; simpl; [reflexivity|].
  rewrite Hx. exact IH.
Qed.

(** Induction over values that reaches the elements of the containers. *)
Lemma PropVal_nested_ind (P : PropVal -> Prop) :
  P VNone ->
  (forall b, P (VBool b)) ->
  (forall i, P (VInteger i)) ->
  (forall r, P (VReal r)) ->
  (forall n, P (VName n)) ->
  (forall s, P (VString s)) ->
  (forall a, Forall P a -> P (VArray a)) ->
  (forall m, Forall (fun e : Z * PropVal => P (snd e)) m -> P (VIndexed m)) ->
  (forall o, Forall (fun e : Name * PropVal => P (snd e)) o -> P (VStruc o)) ->
  forall v, P v.
Proof.
  intros HN HB HI HR HNa HS HA HM HO.
  fix IH 1. intros [ |b|i|r|n|s|a|m|o].
  - exact HN.
  - apply HB.
  - apply HI.
  - apply HR.
  - apply HNa.
  - apply HS.
  - apply HA. induction a as [|x a IHa]; constructor; [apply IH|exact IHa].
  - apply HM. induction m as [|[k x] m IHm]; constructor; [apply IH|exact IHm].
  - apply HO. induction o as [|[k x] o IHo]; constructor; [apply IH|exact IHo].
Qed.

(** *** Equality of doubles *)

Lemma Double_eqb_finite (s s' : bool) (m m' : positive) (e e' : Z) :
  Double.eqb (S754_finite s m e) (S754_finite s' m' e') = true <->
  s = s' /\ m = m' /\ e = e'.
Proof.
  unfold Double.eqb, SFeqb, SFcompare.
  change (Pos.compare_cont Eq m m') with (Pos.compare m m').
  destruct s, s'; try (split; [discriminate|intros (H & _); discriminate H]);
    destruct (Z.compare_spec e e') as [He|He|He];
    destruct (Pos.compare_spec m m') as [Hm|Hm|Hm]; simpl;
    split; try discriminate; try (intros (_ & H1 & H2); lia); intros _;
    subst; repeat split.
Qed.

Lemma Double_eqb_sym (a b : spec_float) : Double.eqb a b = Double.eqb b a.
Proof.
  destruct a as [s|s| |s m e], b as [s'|s'| |s' m' e'];
    try reflexivity;
    try (destruct s, s'; reflexivity);
    try (destruct s; reflexivity);
    try (destruct s'; reflexivity).
  destruct (Double.eqb (S754_finite s m e) (S754_finite s' m' e')) eqn:E1;
    destruct (Double.eqb (S754_finite s' m' e') (S754_finite s m e)) eqn:E2;
    try reflexivity.
  - apply Double_eqb_finite in E1 as (-> & -> & ->).
    rewrite <- E2. symmetry. apply Double_eqb_finite. repeat split.
  - apply Double_eqb_finite in E2 as (-> & -> & ->).
    rewrite <- E1. apply Double_eqb_finite. repeat split.
Qed.

Lemma Double_eqb_refl (a : spec_float) :
  a <> S754_nan -> Double.eqb a a = true.
Proof.
  destruct a as [s|s| |s m e]; intros H.
  - reflexivity.
  - destruct s; reflexivity.
  - now elim H.
  - apply Double_eqb_finite. repeat split.
Qed.

(** Apart from NaN and from the two zeros, [==] on doubles is equality
    of the representations. *)
Lemma Double_eqb_eq (a b : spec_float) :
  a <> S754_nan ->
  Double.is_zero a = false \/ Double.is_zero b = false ->
  Double.eqb a b = true <-> a = b.
Proof.
  intros Hnan Hz. split.
  - destruct a as [s|s| |s m e], b as [s'|s'| |s' m' e']; simpl in *;
      try (destruct Hz; discriminate);
      try (destruct s; discriminate);
      try (destruct s'; discriminate);
      try (destruct s, s'; (discriminate || reflexivity));
      try discriminate.
    intros H. apply Double_eqb_finite in H as (-> & -> & ->). reflexivity.
  - intros <-. apply Double_eqb_refl, Hnan.
Qed.

(** *** Equality of values *)

(** C5 (as amended): a real value compares equal only to another real
    value, and then by the [==] of the two doubles; against every
    integer value the comparison is false, in both directions. The
    [==] of doubles is equality of the representations except that a
    NaN is unequal to itself and the two zeros are equal. *)
Theorem equals_real_spec (r : spec_float) :
  (forall w : PropVal,
      equals (VReal r) w =
      Some (match w with VReal r' => Double.eqb r r' | _ => false end))
  /\ (forall n : Z,
        equals (VReal r) (VInteger n) = Some false
        /\ equals (VInteger n) (VReal r) = Some false)
  /\ (forall r' : spec_float,
        r <> S754_nan ->
        Double.is_zero r = false \/ Double.is_zero r' = false ->
        (equals (VReal r) (VReal r') = Some true <-> r = r'))
  /\ equals (VReal S754_nan) (VReal S754_nan) = Some false
  /\ equals (VReal (S754_zero false)) (VReal (S754_zero true)) = Some true.
Proof.
  split; [|split; [|split; [|split]]]; try reflexivity.
  - intros w. destruct w; reflexivity.
  - intros n. split; reflexivity.
  - intros r' Hnan Hzero. simpl. split.
    + intros Heq. injection Heq as Heq.
      apply Double_eqb_eq in Heq; assumption.
    + intros <-. f_equal. apply Double_eqb_refl, Hnan.
Qed.



(** C3 (the code at the failing input): the array [1] compares equal to
    the longer array [1, 2], which starts with the same element; the
    comparison the other way round reads past the end of the shorter
    array. *)
Theorem Array_eq_prefix :
  Array_eq [PropVal_int64 1] [PropVal_int64 1; PropVal_int64 2] = Some true
  /\ Array_eq [PropVal_int64 1; PropVal_int64 2] [PropVal_int64 1] = None.
Proof. split; reflexivity. Qed.

(** C4 (the code at the failing input): the map {1: 10} compares equal
    to the map {1: 10, 2: 20}, whose first entry in key order is the
    same; the comparison the other way round reads past the end. *)
Theorem Map_eq_prefix :
  Map_eq Z.eqb [(1, PropVal_int64 10)]
               [(1, PropVal_int64 10); (2, PropVal_int64 20)] = Some true
  /\ Map_eq Z.eqb [(1, PropVal_int64 10); (2, PropVal_int64 20)]
                  [(1, PropVal_int64 10)] = None.
Proof. split; reflexivity. Qed.

Section EqualityFacts.

(** [Name::operator==] is an equivalence test on symbols. *)
Hypothesis Name_eqb_refl : forall n, Name_eqb n n = true.
Hypothesis Name_eqb_sym : forall n n', Name_eqb n n' = Name_eqb n' n.

Lemma Entry_eq_refl {Key : Type} (key_eqb : Key -> Key -> bool)
    (m : list (Key * PropVal)) :
  (forall k, key_eqb k k = true) ->
  Forall (fun e => nan_free (snd e) = true ->
                   equals (snd e) (snd e) = Some true) m ->
  forallb (fun e => let '(_, x) := e in nan_free x) m = true ->
  mismatch_at_end (Entry_eq key_eqb equals) m m = Some true.
Proof.
  intros Hk HF Hnan. apply mismatch_at_end_refl.
  induction HF as [|[k x] m Hx _ IH]; constructor.
  - unfold Entry_eq. simpl in *. rewrite Hk.
    apply andb_true_iff in Hnan as [Hnan _]. apply Hx, Hnan.
  - apply IH. simpl in Hnan. apply andb_true_iff in Hnan as [_ Hnan].
    exact Hnan.
Qed.

Lemma equals_refl (v : PropVal) :
  nan_free v = true -> equals v v = Some true.
Proof.
  induction v as [ |b|i|r|n|s|a IH|m IH|o IH] using PropVal_nested_ind;
    intros Hnan; simpl.
  - reflexivity.
  - rewrite eqb_reflx. reflexivity.
  - rewrite Z.eqb_refl. reflexivity.
  - rewrite Double_eqb_refl; [reflexivity|].
    intros ->. discriminate Hnan.
  - rewrite Name_eqb_refl. reflexivity.
  - rewrite String.eqb_refl. reflexivity.
  - apply mismatch_at_end_refl. simpl in Hnan.
    induction IH as [|x a Hx _ IHa]; constructor; simpl in Hnan;
      apply andb_true_iff in Hnan as [H1 H2]; auto.
  - apply Entry_eq_refl; [apply Z.eqb_refl|exact IH|exact Hnan].
  - apply Entry_eq_refl; [apply Name_eqb_refl|exact IH|exact Hnan].
Qed.

Lemma Entry_eq_sym {Key : Type} (key_eqb : Key -> Key -> bool)
    (m : list (Key * PropVal)) :
  (forall k k', key_eqb k k' = key_eqb k' k) ->
  Forall (fun e => forall w b1 b2,
              equals (snd e) w = Some b1 -> equals w (snd e) = Some b2 ->
              b1 = b2) m ->
  forall m' b1 b2,
    mismatch_at_end (Entry_eq key_eqb equals) m m' = Some b1 ->
    mismatch_at_end (Entry_eq key_eqb equals) m' m = Some b2 ->
    b1 = b2.
Proof.
  intros Hk HF. apply mismatch_at_end_sym.
  induction HF as [|[k x] m Hx _ IH]; constructor; [|exact IH].
  intros [k' y] b1 b2. unfold Entry_eq. simpl fst. simpl snd.
  rewrite (Hk k' k). destruct (key_eqb k k').
  - apply Hx.
  - congruence.
Qed.

Lemma equals_sym (v : PropVal) :
  forall (w : PropVal) (b1 b2 : bool),
    equals v w = Some b1 -> equals w v = Some b2 -> b1 = b2.
Proof.
  induction v as [ |b|i|r|n|s|a IH|m IH|o IH] using PropVal_nested_ind;
    intros w b1 b2; destruct w as [ |b'|i'|r'|n'|s'|a'|m'|o']; simpl;
    try congruence.
  all: try (apply mismatch_at_end_sym; exact IH).
  all: try (apply Entry_eq_sym; [first [apply Z.eqb_sym|apply Name_eqb_sym]|exact IH]).
  all: try rewrite (Z.eqb_sym i').
  all: try rewrite (Z.eqb_sym (bool_to_int b')).
  all: try rewrite (Double_eqb_sym r').
  all: try rewrite (Name_eqb_sym n').
  all: try rewrite (String.eqb_sym s').
  all: try congruence.
  destruct b, b'; simpl; congruence.
Qed.

Lemma equals_scalar (v w : PropVal) :
  scalar v = true -> scalar w = true ->
  exists b, equals v w = Some b /\ equals w v = Some b.
Proof.
  intros Hv Hw.
  assert (exists b1, equals v w = Some b1) as [b1 H1]
    by (destruct v, w; try discriminate; simpl; eexists; reflexivity).
  assert (exists b2, equals w v = Some b2) as [b2 H2]
    by (destruct v, w; try discriminate; simpl; eexists; reflexivity).
  exists b1. split; [exact H1|].
  rewrite H2. f_equal. symmetry. exact (equals_sym v w b1 b2 H1 H2).
Qed.

(** C2 (as amended): [operator==] is reflexive on every value that
    holds no NaN, and symmetric on every pair of values on which both
    comparisons are defined; on values that are not containers both
    comparisons are always defined and agree, and a boolean and an
    integer compare equal, in either order, exactly when the integer is
    the 0 or 1 of the boolean. *)
Theorem equals_refl_sym :
  (forall v : PropVal, nan_free v = true -> equals v v = Some true)
  /\ (forall (v w : PropVal) (b1 b2 : bool),
        equals v w = Some b1 -> equals w v = Some b2 -> b1 = b2)
  /\ (forall v w : PropVal,
        scalar v = true -> scalar w = true ->
        exists b, equals v w = Some b /\ equals w v = Some b)
  /\ (forall (b : bool) (i : Z),
        equals (VBool b) (VInteger i) = Some (i =? (if b then 1 else 0))
        /\ equals (VInteger i) (VBool b) = Some (i =? (if b then 1 else 0))).
Proof.
  split; [exact equals_refl|].
  split; [exact equals_sym|].
  split; [exact equals_scalar|].
  intros b i. simpl. unfold bool_to_int. rewrite (Z.eqb_sym _ i).
  split; reflexivity.
Qed.

End EqualityFacts.

(** ** Doubles and 64-bit integers *)

Lemma digits2_pos_bounds (p : positive) :
  2 ^ (Zpos (digits2_pos p) - 1) <= Zpos p < 2 ^ Zpos (digits2_pos p).
Proof.
  induction p as [p IH|p IH|]; simpl digits2_pos.
  - rewrite Pos2Z.inj_succ.
    replace (Z.succ (Zpos (digits2_pos p)) - 1)
      with (Z.succ (Zpos (digits2_pos p) - 1)) by lia.
    rewrite !Z.pow_succ_r by lia. lia.
  - rewrite Pos2Z.inj_succ.
    replace (Z.succ (Zpos (digits2_pos p)) - 1)
      with (Z.succ (Zpos (digits2_pos p) - 1)) by lia.
    rewrite !Z.pow_succ_r by lia. lia.
  - simpl. lia.
Qed.

Lemma digits2_pos_unique (p : positive) (k : Z) :
  2 ^ (k - 1) <= Zpos p < 2 ^ k -> Zpos (digits2_pos p) = k.
Proof.
  intros [Hlo Hhi]. pose proof (digits2_pos_bounds p) as [Dlo Dhi].
  assert (0 < k) as Hk.
  { destruct (Z.ltb_spec 0 k) as [|Hk]; [assumption|].
    assert (2 ^ k <= 2 ^ 0) by (apply Z.pow_le_mono_r; lia).
    simpl in *. lia. }
  assert (Zpos (digits2_pos p) - 1 < k).
  { apply (Z.pow_lt_mono_r_iff 2); lia. }
  assert (k - 1 < Zpos (digits2_pos p)).
  { apply (Z.pow_lt_mono_r_iff 2); lia. }
  lia.
Qed.

Lemma iter_xO_pow (p k : positive) :
  Zpos (Pos.iter xO p k) = Zpos p * 2 ^ Zpos k.
Proof.
  induction k as [|k IH] using Pos.peano_ind.
  - simpl. lia.
  - rewrite Pos.iter_succ, Pos2Z.inj_succ, Z.pow_succ_r by lia.
    rewrite Pos2Z.inj_xO, IH. lia.
Qed.

Lemma iter_pos_shr_1_exact (k : positive) :
  forall m : positive,
    iter_pos shr_1 k
      {| shr_m := Zpos (Pos.iter xO m k); shr_r := false; shr_s := false |}
    = {| shr_m := Zpos m; shr_r := false; shr_s := false |}.
Proof.
  induction k as [k IH|k IH|]; intros m; simpl.
  - rewrite IH, IH. reflexivity.
  - rewrite IH, IH. reflexivity.
  - reflexivity.
Qed.

Lemma iter_pos_invariant {A : Type} (f : A -> A) (Inv : A -> Prop) :
  (forall x, Inv x -> Inv (f x)) ->
  forall (k : positive) (x : A), Inv x -> Inv (iter_pos f k x).
Proof.
  intros Hf. induction k as [k IH|k IH|]; intros x Hx; simpl; auto.
Qed.

(** A mantissa that is already in canonical position is not rounded. *)
Lemma binary_round_aux_canonical (sx : bool) (m : positive) (e : Z) :
  bounded Double.prec Double.emax m e = true ->
  binary_round_aux Double.prec Double.emax sx (Zpos m) e loc_Exact
  = S754_finite sx m e.
Proof.
  unfold bounded, canonical_mantissa. intros H.
  apply andb_true_iff in H as [Hc He]. apply Z.eqb_eq in Hc.
  unfold binary_round_aux, shr_fexp. unfold Zdigits2.
  rewrite Hc, Z.sub_diag.
  cbn [shr shr_record_of_loc shr_m loc_of_shr_record round_nearest_even].
  rewrite Hc, Z.sub_diag.
  cbn [shr shr_record_of_loc shr_m].
  rewrite He. reflexivity.
Qed.

Lemma fexp_small (d : Z) :
  - 1021 <= d -> fexp Double.prec Double.emax d = d - 53.
Proof.
  intros H. unfold fexp, emin, Double.prec, Double.emax. lia.
Qed.

(** An integer of at most 53 bits is converted exactly: its bits are
    moved up to the canonical position. *)
Lemma binary_round_small (sx : bool) (N : positive) :
  Zpos (digits2_pos N) <= 53 ->
  exists M : positive,
    binary_round Double.prec Double.emax sx N 0
    = S754_finite sx M (Zpos (digits2_pos N) - 53)
    /\ Zpos M = Zpos N * 2 ^ (53 - Zpos (digits2_pos N)).
Proof.
  intros Hd. pose proof (digits2_pos_bounds N) as [Hlo Hhi].
  set (d := Zpos (digits2_pos N)) in *.
  assert (1 <= d) as Hd1 by (subst d; lia).
  unfold binary_round, shl_align. fold d.
  rewrite Z.add_0_r, (fexp_small d) by lia. rewrite Z.sub_0_r.
  destruct (d - 53) as [|j|j] eqn:Hj; try lia.
  - exists N. replace d with 53 by lia. split; [|simpl; lia].
    apply binary_round_aux_canonical.
    unfold bounded, canonical_mantissa. fold d.
    replace d with 53 by lia. reflexivity.
  - exists (Pos.iter xO N j).
    assert (Zpos j = 53 - d) as Hj' by lia.
    assert (Zpos (Pos.iter xO N j) = Zpos N * 2 ^ (53 - d)) as HM
      by (rewrite iter_xO_pow, Hj'; reflexivity).
    split; [|exact HM].
    apply binary_round_aux_canonical.
    unfold bounded, canonical_mantissa.
    assert (Zpos (digits2_pos (Pos.iter xO N j)) = 53) as ->.
    { apply digits2_pos_unique. rewrite HM.
      replace (2 ^ (53 - 1)) with (2 ^ (d - 1) * 2 ^ (53 - d))
        by (rewrite <- Z.pow_add_r by lia; f_equal; lia).
      replace (2 ^ 53) with (2 ^ d * 2 ^ (53 - d))
        by (rewrite <- Z.pow_add_r by lia; f_equal; lia).
      assert (0 < 2 ^ (53 - d)) by (apply Z.pow_pos_nonneg; lia).
      nia. }
    rewrite fexp_small by lia.
    apply andb_true_iff. split.
    + apply Z.eqb_eq. lia.
    + apply Z.leb_le. unfold Double.emax, Double.prec. lia.
Qed.

(** A 53-bit mantissa moved up by [e] bits is converted exactly. *)
Lemma binary_round_shifted (sx : bool) (m e : positive) :
  Zpos (digits2_pos m) = 53 ->
  Zpos e <= 971 ->
  binary_round Double.prec Double.emax sx (Pos.iter xO m e) 0
  = S754_finite sx m (Zpos e).
Proof.
  intros Hm He. pose proof (digits2_pos_bounds m) as [Hlo Hhi].
  rewrite Hm in Hlo, Hhi.
  assert (Zpos (digits2_pos (Pos.iter xO m e)) = 53 + Zpos e) as HdN.
  { apply digits2_pos_unique. rewrite iter_xO_pow.
    replace (53 + Zpos e - 1) with (52 + Zpos e) by lia.
    rewrite !Z.pow_add_r by lia.
    assert (0 < 2 ^ Zpos e) by (apply Z.pow_pos_nonneg; lia).
    change (53 - 1) with 52 in Hlo. nia. }
  unfold binary_round, shl_align.
  rewrite HdN, Z.add_0_r, fexp_small by lia.
  replace (53 + Zpos e - 53 - 0) with (Zpos e) by lia.
  unfold binary_round_aux, shr_fexp. unfold Zdigits2 at 1.
  rewrite HdN, Z.add_0_r, fexp_small by lia.
  replace (53 + Zpos e - 53 - 0) with (Zpos e) by lia.
  cbn [shr shr_record_of_loc].
  rewrite iter_pos_shr_1_exact.
  cbn [shr_m loc_of_shr_record round_nearest_even Zdigits2].
  rewrite Hm, fexp_small by lia.
  replace (53 + (0 + Zpos e) - 53 - (0 + Zpos e)) with 0 by lia.
  cbn [shr shr_record_of_loc shr_m].
  replace (0 + Zpos e <=? Double.emax - Double.prec) with true.
  - reflexivity.
  - symmetry. apply Z.leb_le. unfold Double.emax, Double.prec. lia.
Qed.

Lemma shr_1_bounds (B : Z) (mrs : shr_record) :
  0 <= shr_m mrs <= B -> 0 <= shr_m (shr_1 mrs) <= B.
Proof.
  destruct mrs as [[|[p|p|]|p] r s]; simpl; lia.
Qed.

Lemma shr_fexp_bounds (m e : Z) (l : location) :
  0 <= m ->
  0 <= shr_m (fst (shr_fexp Double.prec Double.emax m e l)) <= m
  /\ (snd (shr_fexp Double.prec Double.emax m e l) = e
      \/ snd (shr_fexp Double.prec Double.emax m e l)
         = fexp Double.prec Double.emax (Zdigits2 m + e)).
Proof.
  intros Hm. unfold shr_fexp, shr.
  assert (shr_m (shr_record_of_loc m l) = m) as Hrec
    by (destruct l as [|[| |]]; reflexivity).
  destruct (fexp Double.prec Double.emax (Zdigits2 m + e) - e)
    as [|p|p] eqn:Hn; simpl fst; simpl snd.
  - rewrite Hrec. split; [lia|left; reflexivity].
  - split; [|right; lia].
    apply (iter_pos_invariant shr_1 (fun x => 0 <= shr_m x <= m)).
    + intros x. apply shr_1_bounds.
    + rewrite Hrec. lia.
  - rewrite Hrec. split; [lia|left; reflexivity].
Qed.

Lemma Zdigits2_bound (x k : Z) :
  0 <= k -> 0 <= x < 2 ^ k -> 0 <= Zdigits2 x <= k.
Proof.
  intros Hk [Hx0 Hx]. destruct x as [|p|p]; simpl; try lia.
  pose proof (digits2_pos_bounds p) as [Hlo _].
  assert (Zpos (digits2_pos p) - 1 < k); [|lia].
  apply (Z.pow_lt_mono_r_iff 2); lia.
Qed.

Lemma round_nearest_even_bounds (x : Z) (l : location) :
  x <= round_nearest_even x l <= x + 1.
Proof.
  destruct l as [|[| |]]; simpl; try lia.
  destruct (Z.even x); lia.
Qed.

Lemma fexp_le (x b : Z) :
  x - 53 <= b -> - 1074 <= b -> fexp Double.prec Double.emax x <= b.
Proof. unfold fexp, emin, Double.prec, Double.emax. lia. Qed.

(** Converting a 64-bit integer never overflows to an infinity. *)
Lemma of_int64_not_infinity (z : Z) (s : bool) :
  in_int64 z = true -> Double.of_int64 z <> S754_infinity s.
Proof.
  unfold in_int64, int64_min, int64_max. intros Hz.
  apply andb_true_iff in Hz as [Hlo Hhi].
  apply Z.leb_le in Hlo, Hhi.
  assert (forall (sx : bool) (N : positive),
             Zpos N <= 2 ^ 63 ->
             binary_round Double.prec Double.emax sx N 0
             <> S754_infinity s) as Hround.
  { intros sx N HN.
    destruct (Z.leb_spec (Zpos (digits2_pos N)) 53) as [Hd|Hd].
    - destruct (binary_round_small sx N Hd) as (M & -> & _). discriminate.
    - assert (0 <= Zdigits2 (Zpos N) <= 64) as Hd64
        by (apply Zdigits2_bound; lia).
      simpl Zdigits2 in Hd64.
      unfold binary_round, shl_align.
      rewrite Z.add_0_r, fexp_small by lia. rewrite Z.sub_0_r.
      destruct (Zpos (digits2_pos N) - 53) as [|j|j] eqn:Hj; try lia.
      unfold binary_round_aux.
      pose proof (shr_fexp_bounds (Zpos N) 0 loc_Exact ltac:(lia))
        as [Hm1 He1].
      destruct (shr_fexp Double.prec Double.emax (Zpos N) 0 loc_Exact)
        as [mrs' e'].
      simpl fst in Hm1. simpl snd in He1.
      assert (e' <= 11) as He'.
      { destruct He1 as [->| ->]; [lia|]. apply fexp_le; simpl Zdigits2; lia. }
      assert (- 1074 <= e') as He'lo.
      { destruct He1 as [->| ->]; [lia|].
        unfold fexp, emin, Double.prec, Double.emax. lia. }
      pose proof (round_nearest_even_bounds (shr_m mrs')
                    (loc_of_shr_record mrs')) as Hr.
      set (m1 := round_nearest_even (shr_m mrs') (loc_of_shr_record mrs'))
        in *.
      pose proof (shr_fexp_bounds m1 e' loc_Exact ltac:(lia)) as [Hm2 He2].
      destruct (shr_fexp Double.prec Double.emax m1 e' loc_Exact)
        as [mrs'' e''].
      simpl fst in Hm2. simpl snd in He2.
      assert (e'' <= 971) as He''.
      { destruct He2 as [->| ->]; [lia|].
        assert (0 <= Zdigits2 m1 <= 65) by (apply Zdigits2_bound; lia).
        apply fexp_le; lia. }
      destruct (shr_m mrs'') as [|q|q]; try discriminate.
      replace (e'' <=? Double.emax - Double.prec) with true; [discriminate|].
      symmetry. apply Z.leb_le. unfold Double.emax, Double.prec. lia. }
  unfold Double.of_int64, binary_normalize.
  destruct z as [|N|N]; [discriminate| |]; apply Hround; lia.
Qed.

Lemma of_int64_signed (s : bool) (N : positive) :
  Double.of_int64 (cond_Zopp s (Zpos N))
  = binary_round Double.prec Double.emax s N 0.
Proof. destruct s; reflexivity. Qed.

Lemma canonical_digits (m : positive) (e : Z) :
  bounded Double.prec Double.emax m e = true ->
  Z.max (Zpos (digits2_pos m) + e - 53) (- 1074) = e /\ e <= 971.
Proof.
  unfold bounded, canonical_mantissa, fexp, emin, Double.prec, Double.emax.
  intros H. apply andb_true_iff in H as [Hc He].
  apply Z.eqb_eq in Hc. apply Z.leb_le in He. lia.
Qed.

Lemma digits2_pos_shift (n m : positive) (k : Z) :
  0 <= k -> Zpos m = Zpos n * 2 ^ k ->
  Zpos (digits2_pos m) = Zpos (digits2_pos n) + k.
Proof.
  intros Hk Hm. pose proof (digits2_pos_bounds n) as [Hlo Hhi].
  apply digits2_pos_unique. rewrite Hm.
  replace (Zpos (digits2_pos n) + k - 1) with (Zpos (digits2_pos n) - 1 + k)
    by lia.
  rewrite !Z.pow_add_r by lia.
  assert (0 < 2 ^ k) by (apply Z.pow_pos_nonneg; lia).
  nia.
Qed.

(** A finite double equals the conversion of its truncation exactly
    when it has no fractional part. *)
Lemma round_trip_finite (s : bool) (m : positive) (e : Z) (z : Z) :
  bounded Double.prec Double.emax m e = true ->
  Double.truncate (S754_finite s m e) = Some z ->
  Double.eqb (Double.of_int64 z) (S754_finite s m e)
  = match Double.exact_integer (S754_finite s m e) with
    | Some _ => true
    | None => false
    end.
Proof.
  intros Hb Hz. pose proof (canonical_digits m e Hb) as [Hc He].
  unfold Double.truncate in Hz.
  assert (z = cond_Zopp s
                match e with
                | 0 => Zpos m
                | Zpos p => Zpos m * 2 ^ Zpos p
                | Zneg p => Zpos m / 2 ^ Zpos p
                end) as -> by congruence.
  clear Hz. unfold Double.exact_integer.
  destruct e as [|p|p].
  - (* the mantissa is the integer *)
    rewrite of_int64_signed.
    destruct (binary_round_small s m) as (M & -> & HM); [lia|].
    replace (53 - Zpos (digits2_pos m)) with 0 in HM by lia.
    apply Double_eqb_finite. repeat split; lia.
  - (* the mantissa moved up *)
    rewrite <- iter_xO_pow, of_int64_signed.
    rewrite binary_round_shifted by lia.
    apply Double_eqb_finite. repeat split.
  - (* the mantissa cut at the binary point *)
    pose proof (Z.div_mod (Zpos m) (2 ^ Zpos p)) as Hdm.
    assert (0 < 2 ^ Zpos p) as Hpow by (apply Z.pow_pos_nonneg; lia).
    pose proof (Z.mod_pos_bound (Zpos m) (2 ^ Zpos p) Hpow) as Hr.
    pose proof (Z.div_pos (Zpos m) (2 ^ Zpos p) ltac:(lia) Hpow) as Hq.
    specialize (Hdm ltac:(lia)).
    destruct (Zpos m / 2 ^ Zpos p) as [|n|n] eqn:HN; [| |lia].
    + (* below one in magnitude *)
      replace (cond_Zopp s 0) with 0 by (destruct s; reflexivity).
      destruct (Z.eqb_spec (Zpos m mod 2 ^ Zpos p) 0) as [E|E]; [lia|].
      destruct s; reflexivity.
    + rewrite of_int64_signed.
      pose proof (digits2_pos_bounds m) as [Hmlo Hmhi].
      pose proof (digits2_pos_bounds n) as [Hnlo Hnhi].
      assert (Zpos (digits2_pos n) <= 53) as Hdn.
      { assert (Zpos (digits2_pos n) - 1 < Zpos (digits2_pos m)); [|lia].
        apply (Z.pow_lt_mono_r_iff 2); try lia. nia. }
      destruct (binary_round_small s n Hdn) as (M & -> & HM).
      destruct (Z.eqb_spec (Zpos m mod 2 ^ Zpos p) 0) as [E|E].
      * assert (Zpos m = Zpos n * 2 ^ Zpos p) as Hmn by lia.
        pose proof (digits2_pos_shift n m (Zpos p) ltac:(lia) Hmn) as Hd.
        apply Double_eqb_finite.
        assert (53 - Zpos (digits2_pos n) = Zpos p) as Hk by lia.
        rewrite Hk in HM. repeat split; lia.
      * destruct (Double.eqb (S754_finite s M (Zpos (digits2_pos n) - 53))
                    (S754_finite s m (Zneg p))) eqn:Eq; [|reflexivity].
        apply Double_eqb_finite in Eq as (_ & -> & Hexp).
        replace (53 - Zpos (digits2_pos n)) with (Zpos p) in HM by lia.
        elim E. rewrite HM. apply Z.mod_mul. lia.
Qed.

Lemma exact_integer_truncate (f : spec_float) (n : Z) :
  Double.exact_integer f = Some n -> Double.truncate f = Some n.
Proof.
  destruct f as [s|s| |s m [|p|p]]; simpl; try congruence.
  destruct (_ =? 0); congruence.
Qed.

Lemma static_cast_int64_defined (value : spec_float) (z : Z) :
  Double.truncate value = Some z -> in_int64 z = true ->
  static_cast_int64 value = z.
Proof.
  intros Ht Hz. unfold static_cast_int64. rewrite Ht, Hz. reflexivity.
Qed.

Section DoubleConstructor.

(** Whatever the cast yields where the language does not define it, it
    is an [int64_t]. *)
Hypothesis fptosi_invalid_range :
  forall value, in_int64 (fptosi_invalid value) = true.

Lemma static_cast_int64_range (value : spec_float) :
  in_int64 (static_cast_int64 value) = true.
Proof.
  unfold static_cast_int64.
  destruct (Double.truncate value) as [z|]; [|apply fptosi_invalid_range].
  destruct (in_int64 z) eqn:E; [exact E|apply fptosi_invalid_range].
Qed.

Lemma PropVal_double_nan : PropVal_double S754_nan = VReal S754_nan.
Proof.
  unfold PropVal_double. cbv zeta.
  destruct (Double.of_int64 (static_cast_int64 S754_nan)); reflexivity.
Qed.

Lemma PropVal_double_infinity (s : bool) :
  PropVal_double (S754_infinity s) = VReal (S754_infinity s).
Proof.
  unfold PropVal_double. cbv zeta.
  pose proof (of_int64_not_infinity (static_cast_int64 (S754_infinity s)))
    as Hfin.
  specialize (fun s' => Hfin s' (static_cast_int64_range _)).
  destruct (Double.of_int64 (static_cast_int64 (S754_infinity s)))
    as [s'|s'| |s' m e].
  - destruct s; reflexivity.
  - elim (Hfin s'). reflexivity.
  - reflexivity.
  - destruct s; reflexivity.
Qed.

Lemma PropVal_double_exact (value : spec_float) :
  Double.valid value = true ->
  Double.fits_int64 value = true ->
  PropVal_double value =
  match Double.exact_integer value with
  | Some n => VInteger n
  | None => VReal value
  end.
Proof.
  unfold Double.valid, Double.fits_int64. intros Hv Hfit.
  destruct (Double.truncate value) as [z|] eqn:Ht; [|discriminate].
  unfold PropVal_double. cbv zeta.
  rewrite (static_cast_int64_defined value z Ht Hfit).
  destruct value as [s|s| |s m e]; try discriminate.
  - simpl in Ht. injection Ht as <-. reflexivity.
  - rewrite (round_trip_finite s m e z Hv Ht).
    destruct (Double.exact_integer (S754_finite s m e)) as [n|] eqn:En;
      [|reflexivity].
    apply exact_integer_truncate in En. congruence.
Qed.

(** C1: [PropVal(double)] stores the integer tag exactly when the cast
    to [int64_t], converted back, compares equal to the double, and the
    real tag with the double itself otherwise. Wherever the cast is
    defined this is exactly when the double is a whole number, and the
    integer stored is that number. [PropVal(1.0)] and [PropVal(int64 1)]
    are both the integer 1, [PropVal(1.5)] is the real 1.5, and NaN and
    the infinities are stored as reals. *)
Theorem PropVal_double_spec :
  (forall value : spec_float,
      PropVal_double value =
      if Double.eqb (Double.of_int64 (static_cast_int64 value)) value
      then VInteger (static_cast_int64 value)
      else VReal value)
  /\ (forall value : spec_float,
        Double.valid value = true ->
        Double.fits_int64 value = true ->
        PropVal_double value =
        match Double.exact_integer value with
        | Some n => VInteger n
        | None => VReal value
        end)
  /\ PropVal_double Double.one = VInteger 1
  /\ PropVal_int64 1 = VInteger 1
  /\ PropVal_double Double.one_and_a_half = VReal Double.one_and_a_half
  /\ PropVal_double S754_nan = VReal S754_nan
  /\ (forall s : bool,
        PropVal_double (S754_infinity s) = VReal (S754_infinity s)).
Proof.
  split; [reflexivity|].
  split; [exact PropVal_double_exact|].
  split; [reflexivity|].
  split; [reflexivity|].
  split; [reflexivity|].
  split; [exact PropVal_double_nan|exact PropVal_double_infinity].
Qed.

End DoubleConstructor.

(** * Further properties *)

(** ** Accessors *)

(** X1: the narrowing accessors agree with the wider ones. When
    [asBool] returns a boolean, [asInt] returns its 0 or 1; when [asInt]
    returns a number, the number lies in the 32-bit range and
    [asLong64] returns the same number. *)
Theorem accessors_widen (v : PropVal) :
  (forall b : bool, asBool v = Ok b -> asInt v = Ok (if b then 1 else 0))
  /\ (forall n : Z,
        asInt v = Ok n ->
        asLong64 v = Ok n /\ - 2 ^ 31 <= n <= 2 ^ 31 - 1).
Proof.
  split.
  - intros b H. destruct v as [ |b'|i|r|n|s|a|m|o]; try discriminate H.
    + injection H as ->. reflexivity.
    + simpl in H. destruct i as [|[p|p|]|p]; try discriminate H;
        injection H as <-; reflexivity.
  - intros n H. destruct v as [ |b'|i|r|n'|s|a|m|o]; try discriminate H.
    + injection H as <-. split; [reflexivity|]. destruct b'; simpl; lia.
    + simpl in H. unfold castToInt32 in H. cbv zeta in H.
      destruct (static_cast_int32 i =? i) eqn:E; [|discriminate H].
      apply Z.eqb_eq in E. injection H as <-. rewrite E.
      split; [reflexivity|]. apply static_cast_int32_fixed, E.
Qed.

(** X2: every accessor fails with [std::bad_cast] only, and which tags
    an accessor accepts is what the tag predicates say: [asLong64]
    succeeds exactly on booleans and integers, [asDouble] exactly where
    [isReal] or [isBool] holds, the container accessors exactly on their
    own tag. *)
Theorem accessor_tags (v : PropVal) :
  ((exists n, asLong64 v = Ok n) <-> isBool v = true \/ isInteger v = true)
  /\ ((exists d, asDouble v = Ok d) <-> isReal v = true \/ isBool v = true)
  /\ ((exists a, asArray v = Ok a) <-> isArray v = true)
  /\ ((exists m, asIndexed v = Ok m) <-> isIndexed v = true)
  /\ ((exists o, asStruc v = Ok o) <-> isStruc v = true)
  /\ (forall e, asBool v = Throw e \/ asInt v = Throw e
                \/ asLong64 v = Throw e \/ asDouble v = Throw e
                \/ asArray v = Throw e \/ asIndexed v = Throw e
                \/ asStruc v = Throw e -> e = bad_cast).
Proof.
  repeat split.
  all: try (intros [x Hx]; destruct v; try discriminate Hx;
            first [left; reflexivity|right; reflexivity|reflexivity]).
  all: try (intros Ht; destruct v; simpl in Ht;
            try (destruct Ht; discriminate); try discriminate Ht;
            eexists; reflexivity).
  intros e Hthrow.
  assert (forall i, castToBool i = Throw e -> e = bad_cast) as HB.
  { intros i. rewrite castToBool_cases.
    destruct (i =? 0); [discriminate|].
    destruct (i =? 1); [discriminate|]. congruence. }
  assert (forall i, castToInt32 i = Throw e -> e = bad_cast) as HI.
  { intros i. unfold castToInt32. cbv zeta.
    destruct (static_cast_int32 i =? i); [discriminate|]. congruence. }
  destruct v as [ |b|i|r|n|s|a|m|o]; simpl in Hthrow;
    repeat match goal with
           | H : _ \/ _ |- _ => destruct H as [H|H]
           end;
    try discriminate; try congruence;
    first [eapply HB; eassumption|eapply HI; eassumption].
Qed.

(** ** Equality *)

(** X3: between values that [asLong64] can read, that is booleans and
    integers in any combination, [operator==] is always defined and
    holds exactly when the two readings are the same number. *)
Theorem equals_as_long64 (v w : PropVal) (x y : Z) :
  asLong64 v = Ok x -> asLong64 w = Ok y -> equals v w = Some (x =? y).
Proof.
  intros Hv Hw.
  destruct v as [ |b|i|r|n|s|a|m|o]; try discriminate Hv;
    destruct w as [ |b'|i'|r'|n'|s'|a'|m'|o']; try discriminate Hw;
    injection Hv as <-; injection Hw as <-; simpl; try reflexivity.
  destruct b, b'; reflexivity.
Qed.


(** X4: on the tags that [operator==] settles itself (absent, boolean,
    integer, real) the comparison is always defined, and it never holds
    between different tags except between a boolean and an integer. *)
Theorem equals_inline_tags (v w : PropVal) :
  compared_inline v = true ->
  (exists b, equals v w = Some b)
  /\ (equals v w = Some true ->
      type w = type v
      \/ (type v = BOOL /\ type w = INTEGER)
      \/ (type v = INTEGER /\ type w = BOOL)).
Proof.
  intros Hv.
  destruct v as [ |b|i|r|n|s|a|m|o]; try discriminate Hv;
    destruct w as [ |b'|i'|r'|n'|s'|a'|m'|o']; simpl;
    (split; [eexists; reflexivity|]); intros H;
    try discriminate H;
    first [left; reflexivity
          |right; left; split; reflexivity
          |right; right; split; reflexivity].
Qed.

Lemma Double_eqb_trans (a b c : spec_float) :
  Double.eqb a b = true -> Double.eqb b c = true -> Double.eqb a c = true.
Proof.
  destruct a as [s1|s1| |s1 m1 e1], b as [s2|s2| |s2 m2 e2];
    try discriminate;
    try (destruct s1; discriminate);
    try (destruct s2; discriminate);
    try (destruct s1, s2; discriminate).
  - destruct c as [s3|s3| |s3 m3 e3]; intros _ H; exact H.
  - destruct c as [s3|s3| |s3 m3 e3]; try discriminate;
      try (destruct s2; discriminate).
    destruct s1, s2, s3; try discriminate; reflexivity.
  - intros H1 H2. apply Double_eqb_finite in H1 as (-> & -> & ->). exact H2.
Qed.

(** X5: on those tags [operator==] is transitive: from [u == v] and
    [v == w] follows [u == w], also across booleans and integers. *)
Theorem equals_inline_trans (u v w : PropVal) :
  compared_inline u = true ->
  equals u v = Some true -> equals v w = Some true ->
  equals u w = Some true.
Proof.
  intros Hu Huv Hvw.
  destruct u as [ |b1|i1|r1|n1|s1|a1|m1|o1]; try discriminate Hu;
    destruct v as [ |b2|i2|r2|n2|s2|a2|m2|o2]; try discriminate Huv;
    destruct w as [ |b3|i3|r3|n3|s3|a3|m3|o3]; try discriminate Hvw;
    simpl in *; try reflexivity;
    injection Huv as Huv; injection Hvw as Hvw; f_equal;
    try (apply (Double_eqb_trans r1 r2 r3); assumption);
    try (destruct b1, b2; try discriminate; assumption);
    try (destruct b2, b3; try discriminate; assumption);
    try (destruct b1; destruct b2; try discriminate;
         destruct b3; try discriminate; reflexivity);
    unfold bool_to_int in *;
    repeat match goal with
           | H : (_ =? _) = true |- _ => apply Z.eqb_eq in H
           | H : Bool.eqb _ _ = true |- _ => apply Bool.eqb_prop in H
           end;
    subst; try apply Z.eqb_refl; try apply eqb_reflx;
    try (destruct b1, b2; simpl in *; congruence);
    try (destruct b2, b3; simpl in *; congruence);
    try (destruct b1, b3; simpl in *; (reflexivity || lia)).
Qed.

(** ** Doubles through values *)

(** X6: a double put into a value and read back with [asDouble]
    compares equal to the original, whatever the tag it was stored
    under and whatever the cast yields where it is undefined; only a
    NaN, unequal to everything, is excepted. *)
Theorem asDouble_PropVal_double (value : spec_float) :
  value <> S754_nan ->
  exists d, asDouble (PropVal_double value) = Ok d
            /\ Double.eqb d value = true.
Proof.
  intros Hnan. unfold PropVal_double. cbv zeta.
  destruct (Double.eqb (Double.of_int64 (static_cast_int64 value)) value)
    eqn:E.
  - exists (Double.of_int64 (static_cast_int64 value)). split; [reflexivity|exact E].
  - exists value. split; [reflexivity|]. apply Double_eqb_refl, Hnan.
Qed.

Lemma truncate_of_int64_small (s : bool) (N M : positive) :
  Zpos (digits2_pos N) <= 53 ->
  Zpos M = Zpos N * 2 ^ (53 - Zpos (digits2_pos N)) ->
  Double.truncate (S754_finite s M (Zpos (digits2_pos N) - 53))
  = Some (cond_Zopp s (Zpos N)).
Proof.
  intros Hd HM. unfold Double.truncate. f_equal. f_equal.
  destruct (Zpos (digits2_pos N) - 53) as [|j|j] eqn:Hj; try lia.
  - replace (53 - Zpos (digits2_pos N)) with 0 in HM by lia.
    rewrite HM. simpl. lia.
  - replace (53 - Zpos (digits2_pos N)) with (Zpos j) in HM by lia.
    rewrite HM. apply Z.div_mul.
    assert (0 < 2 ^ Zpos j) by (apply Z.pow_pos_nonneg; lia). lia.
Qed.

(** X7: an integer of magnitude below 2^53 read as a double by
    [asDouble] and put back with [PropVal(double)] is the same integer
    value again. *)
Theorem PropVal_double_asDouble (i : Z) :
  - 2 ^ 53 < i < 2 ^ 53 ->
  exists d, asDouble (VInteger i) = Ok d /\ PropVal_double d = VInteger i.
Proof.
  intros Hi. exists (Double.of_int64 i). split; [reflexivity|].
  assert (forall (s : bool) (N : positive),
             Zpos N < 2 ^ 53 ->
             PropVal_double (Double.of_int64 (cond_Zopp s (Zpos N)))
             = VInteger (cond_Zopp s (Zpos N))) as Hsigned.
  { intros s N HN.
    assert (Zpos (digits2_pos N) <= 53) as Hd.
    { pose proof (digits2_pos_bounds N) as [Hlo _].
      assert (Zpos (digits2_pos N) - 1 < 53); [|lia].
      apply (Z.pow_lt_mono_r_iff 2); lia. }
    rewrite of_int64_signed.
    destruct (binary_round_small s N Hd) as (M & HMeq & HM).
    rewrite HMeq. unfold PropVal_double. cbv zeta.
    rewrite (static_cast_int64_defined _ (cond_Zopp s (Zpos N))).
    - rewrite of_int64_signed, HMeq.
      rewrite Double_eqb_refl by discriminate. reflexivity.
    - apply truncate_of_int64_small; assumption.
    - unfold in_int64, int64_min, int64_max.
      apply andb_true_iff. split; apply Z.leb_le; destruct s; simpl; lia. }
  destruct i as [|N|N].
  - reflexivity.
  - apply (Hsigned false N). lia.
  - apply (Hsigned true N). lia.
Qed.

(** X8: a value made from a double on which the cast is defined equals
    the value made from the integer [n] exactly when the double is the
    whole number [n]. *)
Theorem equals_double_integer (value : spec_float) (n : Z) :
  Double.valid value = true ->
  Double.fits_int64 value = true ->
  equals (PropVal_double value) (PropVal_int64 n)
  = Some (match Double.exact_integer value with
          | Some k => k =? n
          | None => false
          end).
Proof.
  intros Hv Hfit. rewrite (PropVal_double_exact value Hv Hfit).
  destruct (Double.exact_integer value); reflexivity.
Qed.

(** ** The array *)

(** X9: [Array::at] throws [std::out_of_range] exactly on the indices
    from [size()] on; below [size()] it returns the element that the
    unchecked [operator[]] reads, and from [size()] on [operator[]]
    reads nothing that is there. *)
Theorem Array_at_bounds (a : Array) (i : nat) :
  (Array_at a i = Throw out_of_range <-> (Array_size a <= i)%nat)
  /\ ((i < Array_size a)%nat ->
      exists x, Array_at a i = Ok x /\ Array_subscript a i = Some x)
  /\ ((Array_size a <= i)%nat -> Array_subscript a i = None).
Proof.
  unfold Array_at, Array_subscript, Array_size.
  split; [|split].
  - destruct (nth_error a i) as [x|] eqn:E.
    + split; [discriminate|]. intros H.
      apply nth_error_None in H. congruence.
    + split; [|reflexivity]. intros _. apply nth_error_None, E.
  - intros Hi. destruct (nth_error a i) as [x|] eqn:E.
    + exists x. split; reflexivity.
    + apply nth_error_None in E. lia.
  - intros Hi. apply nth_error_None, Hi.
Qed.

(** X10: [push_back] makes the array one longer, puts the value at the
    old [size()], where [back()] and [at] find it, and leaves every
    element below in place. *)
Theorem Array_push_back_spec (a : Array) (val : PropVal) :
  Array_size (Array_push_back a val) = S (Array_size a)
  /\ Array_empty (Array_push_back a val) = false
  /\ Array_back (Array_push_back a val) = Some val
  /\ Array_at (Array_push_back a val) (Array_size a) = Ok val
  /\ (forall i : nat,
        (i < Array_size a)%nat ->
        Array_at (Array_push_back a val) i = Array_at a i).
Proof.
  unfold Array_size, Array_push_back, Array_at.
  assert (nth_error (a ++ [val]) (List.length a) = Some val) as Hlast.
  { rewrite nth_error_app2 by lia. rewrite Nat.sub_diag. reflexivity. }
  split; [|split; [|split; [|split]]].
  - rewrite length_app. simpl. lia.
  - destruct a; reflexivity.
  - assert (Array_back (a ++ [val])
            = nth_error (a ++ [val]) (List.length (a ++ [val]) - 1)) as ->
      by (destruct a; reflexivity).
    rewrite length_app. simpl List.length.
    replace (List.length a + 1 - 1)%nat with (List.length a) by lia.
    exact Hlast.
  - rewrite Hlast. reflexivity.
  - intros i Hi. rewrite nth_error_app1 by exact Hi. reflexivity.
Qed.

(** X11: [resize(n)] leaves exactly [n] elements: those the array had
    below [n] stay, and every index from the old [size()] up to [n]
    holds a default-constructed, absent value. *)
Theorem Array_resize_spec (a : Array) (n : nat) :
  Array_size (Array_resize a n) = n
  /\ (forall i : nat,
        (i < n)%nat -> (i < Array_size a)%nat ->
        Array_at (Array_resize a n) i = Array_at a i)
  /\ (forall i : nat,
        (Array_size a <= i)%nat -> (i < n)%nat ->
        Array_at (Array_resize a n) i = Ok VNone).
Proof.
  unfold Array_size, Array_resize, Array_at.
  split; [|split].
  - rewrite length_app, length_firstn, repeat_length. lia.
  - intros i Hn Ha.
    rewrite nth_error_app1 by (rewrite length_firstn; lia).
    rewrite nth_error_firstn.
    destruct (Nat.ltb_spec i n) as [_|H]; [reflexivity|lia].
  - intros i Ha Hn.
    rewrite nth_error_app2 by (rewrite length_firstn; lia).
    rewrite length_firstn.
    rewrite nth_error_repeat by lia. reflexivity.
Qed.

Lemma fold_push_back (elems a : Array) :
  fold_left Array_push_back elems a = a ++ elems.
Proof.
  revert a. induction elems as [|x elems IH]; intros a; simpl.
  - rewrite app_nil_r. reflexivity.
  - rewrite IH. unfold Array_push_back. rewrite <- app_assoc. reflexivity.
Qed.

(** X12: [PropVal::array(first, last)] never fails and builds the array
    value of exactly the elements of the range, in order, the same
    value as the initializer-list form; a range loop over it visits
    those elements and stops. *)
Theorem array_range_spec (Name_default : Name) (elems : list PropVal) :
  array_range Name_default elems = Ok (array_init elems)
  /\ asArray (array_init elems) = Ok elems
  /\ forall fuel : nat,
       (List.length elems <= fuel)%nat ->
       range_for fuel (array_init elems) = Some elems.
Proof.
  split; [|split].
  - unfold array_range. simpl. rewrite fold_push_back. reflexivity.
  - reflexivity.
  - intros fuel Hfuel. unfold range_for, array_init. simpl begin_. simpl end_.
    unfold Array_begin. rewrite visit_range_elements by lia. reflexivity.
Qed.



(** ** The ordered map, continued *)

Lemma insert_subscript {Key V : Type} (comp : Key -> Key -> bool)
    (key : Key) (val : V) (m : Map.Entries) :
  Map.insert comp key val m = fst (Map.subscript comp val key m).
Proof.
  induction m as [|[k v] m IH]; simpl; [reflexivity|].
  destruct (comp k key).
  - rewrite IH. destruct (Map.subscript comp val key m). reflexivity.
  - destruct (comp key k); reflexivity.
Qed.

(** X14: [operator[]] adds exactly one entry when the key is missing
    and none when it is present, and so does [operator()]; after either
    the key is a member. *)
Theorem Map_size_spec {Key V : Type} (comp : Key -> Key -> bool)
    (dflt : V) (key : Key) (d : V) (m : Map.Entries) :
  Map.size (fst (Map.subscript comp dflt key m))
  = (if Map.hasMember comp key m then Map.size m else S (Map.size m))
  /\ (forall m' v,
        Map.call comp dflt key d m = Ok (m', v) ->
        Map.size m'
        = (if Map.hasMember comp key m then Map.size m else S (Map.size m))).
Proof.
  assert (forall x : V,
             Map.size (fst (Map.subscript comp x key m))
             = (if Map.hasMember comp key m then Map.size m
                else S (Map.size m))) as Hsub.
  { intros x. unfold Map.hasMember, Map.size.
    induction m as [|[k v] m IH]; simpl; [reflexivity|].
    destruct (comp k key).
    - destruct (Map.subscript comp x key m) as [m'' r]. simpl in *.
      rewrite IH. destruct (Map.find comp key m); reflexivity.
    - destruct (comp key k); reflexivity. }
  assert (forall (x : V) (l : Map.Entries),
             Map.size (Map.assign comp key x l) = Map.size l) as Hassign.
  { intros x l. unfold Map.size.
    induction l as [|[k v] l IH]; simpl; [reflexivity|].
    destruct (comp k key); simpl; [rewrite IH; reflexivity|].
    destruct (comp key k); reflexivity. }
  split; [apply Hsub|].
  intros m' v. unfold Map.call.
  destruct (Map.hasMember comp key m) eqn:Hmem.
  - unfold Map.at_. destruct (Map.find comp key m); [|discriminate].
    intros H. injection H as <- _. reflexivity.
  - specialize (Hsub dflt).
    destruct (Map.subscript comp dflt key m) as [m1 r1]. simpl in Hsub.
    intros H. injection H as <- _. rewrite Hassign. exact Hsub.
Qed.

Section MapOrder.
Context {Key V : Type}.
Variable comp : Key -> Key -> bool.

(** [Compare] is a strict total order on the keys, as [std::less] on
    [int64_t] and the order of symbols by identity are. *)
Hypothesis comp_irrefl : forall a, comp a a = false.
Hypothesis comp_trans :
  forall a b c, comp a b = true -> comp b c = true -> comp a c = true.
Hypothesis comp_total :
  forall a b, comp a b = false -> comp b a = false -> a = b.

Lemma comp_antisym (a b : Key) : comp a b = true -> comp b a = false.
Proof. apply comp_asym; assumption. Qed.

Lemma insert_above (k key : Key) (val : V) (m : Map.Entries) :
  comp k key = true ->
  Forall (fun e : Key * V => comp k (fst e) = true) m ->
  Forall (fun e : Key * V => comp k (fst e) = true) (Map.insert comp key val m).
Proof.
  intros Hk HF. induction HF as [|[k' v'] m Hk' HF IH]; simpl.
  - constructor; [exact Hk|constructor].
  - destruct (comp k' key).
    + constructor; [exact Hk'|exact IH].
    + destruct (comp key k'); repeat constructor; assumption.
Qed.

Lemma insert_sorted (key : Key) (val : V) (m : Map.Entries) :
  Map.sorted comp m -> Map.sorted comp (Map.insert comp key val m).
Proof.
  unfold Map.sorted.
  induction 1 as [|[k v] m Hs IH HF]; simpl.
  - constructor; constructor.
  - destruct (comp k key) eqn:E1.
    + constructor; [exact IH|]. apply insert_above; assumption.
    + destruct (comp key k) eqn:E2.
      * constructor; [constructor; assumption|].
        constructor; [exact E2|].
        apply Forall_forall. intros e He.
        rewrite Forall_forall in HF.
        apply (comp_trans key k (fst e) E2). apply HF, He.
      * constructor; assumption.
Qed.

Lemma assign_above (k key : Key) (val : V) (m : Map.Entries) :
  Forall (fun e : Key * V => comp k (fst e) = true) m ->
  Forall (fun e : Key * V => comp k (fst e) = true) (Map.assign comp key val m).
Proof.
  induction 1 as [|[k' v'] m Hk' HF IH]; simpl; [constructor|].
  destruct (comp k' key).
  - constructor; assumption.
  - destruct (comp key k'); constructor; assumption.
Qed.

Lemma assign_sorted (key : Key) (val : V) (m : Map.Entries) :
  Map.sorted comp m -> Map.sorted comp (Map.assign comp key val m).
Proof.
  unfold Map.sorted.
  induction 1 as [|[k v] m Hs IH HF]; simpl; [constructor|].
  destruct (comp k key).
  - constructor; [exact IH|]. apply assign_above, HF.
  - destruct (comp key k); constructor; assumption.
Qed.

Lemma of_list_sorted_from (init : list (Key * V)) (m : Map.Entries) :
  Map.sorted comp m ->
  Map.sorted comp
    (fold_left (fun m e => Map.insert comp (fst e) (snd e) m) init m).
Proof.
  revert m. induction init as [|e init IH]; intros m Hm; simpl.
  - exact Hm.
  - apply IH, insert_sorted, Hm.
Qed.

(** X15: the entries stay in strictly ascending key order, so that no
    key occurs twice: [operator[]], assignment through the reference it
    returns and [operator()] keep the order, and the map built from an
    initializer list has it. *)
Theorem Map_sorted_invariant (dflt : V) (key : Key) (d : V)
    (m : Map.Entries) (init : list (Key * V)) :
  Map.sorted comp (Map.of_list comp init)
  /\ (Map.sorted comp m ->
      Map.sorted comp (fst (Map.subscript comp dflt key m))
      /\ Map.sorted comp (Map.assign comp key d m)
      /\ (forall m' v,
            Map.call comp dflt key d m = Ok (m', v) -> Map.sorted comp m')
      /\ NoDup (map fst m)).
Proof.
  split.
  - apply of_list_sorted_from. constructor.
  - intros Hm. split; [|split; [|split]].
    + rewrite <- insert_subscript. apply insert_sorted, Hm.
    + apply assign_sorted, Hm.
    + intros m' v. unfold Map.call.
      destruct (Map.hasMember comp key m).
      * unfold Map.at_. destruct (Map.find comp key m); [|discriminate].
        intros H. injection H as <- _. exact Hm.
      * pose proof (insert_sorted key dflt m Hm) as Hs.
        rewrite insert_subscript in Hs.
        destruct (Map.subscript comp dflt key m) as [m1 r1]. simpl in Hs.
        intros H. injection H as <- _. apply assign_sorted, Hs.
    + unfold Map.sorted in Hm.
      induction Hm as [|[k v] l Hs IH HF]; simpl; constructor; [|exact IH].
      intros Hin. apply in_map_iff in Hin as (e & He & Hin).
      rewrite Forall_forall in HF. specialize (HF e Hin).
      rewrite He, comp_irrefl in HF. discriminate.
Qed.

(** X16: in a map in key order, lookup finds exactly the entries
    stored: [find] yields the value [v] for a key if and only if the
    entry of that key and [v] is in the map, and [hasMember] holds
    exactly for the keys stored. *)
Theorem Map_find_In (key : Key) (m : Map.Entries) :
  Map.sorted comp m ->
  (forall v : V, Map.find comp key m = Some v <-> In (key, v) m)
  /\ (Map.hasMember comp key m = true <-> In key (map fst m)).
Proof.
  intros Hm.
  assert (forall v : V, Map.find comp key m = Some v <-> In (key, v) m)
    as Hfind.
  { unfold Map.sorted in Hm.
    induction Hm as [|[k v0] l Hs IH HF]; intros v; simpl.
    - split; [discriminate|contradiction].
    - destruct (comp k key) eqn:E1.
      + rewrite IH. split; [intros H; right; exact H|].
        intros [H|H]; [|exact H].
        injection H as -> _. rewrite comp_irrefl in E1. discriminate.
      + destruct (comp key k) eqn:E2.
        * split; [discriminate|]. intros [H|H].
          -- injection H as -> _. rewrite comp_irrefl in E2. discriminate.
          -- rewrite Forall_forall in HF. specialize (HF _ H). simpl in HF.
             rewrite (comp_antisym _ _ HF) in E2. discriminate.
        * pose proof (comp_total _ _ E1 E2) as ->.
          split.
          -- intros H. injection H as ->. left. reflexivity.
          -- intros [H|H]; [congruence|].
             rewrite Forall_forall in HF. specialize (HF _ H). simpl in HF.
             rewrite comp_irrefl in HF. discriminate. }
  split; [exact Hfind|].
  unfold Map.hasMember. split.
  - intros H.
    assert (exists v, Map.find comp key m = Some v) as [v E].
    { clear Hfind. destruct (Map.find comp key m) as [v|];
        [exists v; reflexivity|discriminate]. }
    apply Hfind in E. apply in_map_iff. exists (key, v).
    split; [reflexivity|exact E].
  - intros Hin. apply in_map_iff in Hin as ([k v] & Hk & Hin).
    simpl in Hk. subst k. apply Hfind in Hin. rewrite Hin. reflexivity.
Qed.

Lemma find_insert (key key' : Key) (val : V) (m : Map.Entries) :
  Map.find comp key' (Map.insert comp key val m)
  = match Map.find comp key' m with
    | Some x => Some x
    | None => if comp key key' || comp key' key then None else Some val
    end.
Proof.
  rewrite insert_subscript.
  destruct (comp key key' || comp key' key) eqn:E.
  - rewrite (subscript_frame comp comp_irrefl comp_trans).
    + destruct (Map.find comp key' m); reflexivity.
    + apply orb_true_iff, E.
  - apply orb_false_iff in E as [E1 E2].
    pose proof (comp_total _ _ E1 E2) as <-.
    destruct (Map.find comp key m) as [x|] eqn:Hf.
    + rewrite (subscript_present comp val key m x Hf). exact Hf.
    + apply (subscript_find comp comp_irrefl), Hf.
Qed.

Lemma of_list_find_from (key : Key) (init : list (Key * V))
    (m : Map.Entries) :
  Map.find comp key
    (fold_left (fun m e => Map.insert comp (fst e) (snd e) m) init m)
  = match Map.find comp key m with
    | Some x => Some x
    | None => Map.first_entry comp key init
    end.
Proof.
  revert m. induction init as [|[k v] init IH]; intros m; simpl.
  - destruct (Map.find comp key m); reflexivity.
  - rewrite IH, find_insert.
    destruct (Map.find comp key m); [reflexivity|].
    destruct (comp k key || comp key k); reflexivity.
Qed.

Lemma first_entry_In (key : Key) (init : list (Key * V)) (v : V) :
  NoDup (map fst init) ->
  Map.first_entry comp key init = Some v <-> In (key, v) init.
Proof.
  induction init as [|[k v0] init IH]; simpl; intros Hnd.
  - split; [discriminate|contradiction].
  - inversion Hnd as [|? ? Hnotin Hnd']; subst.
    destruct (comp k key || comp key k) eqn:E.
    + rewrite (IH Hnd'). split; [intros H; right; exact H|].
      intros [H|H]; [|exact H].
      injection H as -> _. rewrite comp_irrefl in E. discriminate.
    + apply orb_false_iff in E as [E1 E2].
      pose proof (comp_total _ _ E1 E2) as ->.
      split.
      * intros H. injection H as ->. left. reflexivity.
      * intros [H|H]; [congruence|].
        elim Hnotin. apply in_map_iff. exists (key, v).
        split; [reflexivity|exact H].
Qed.

(** X17: looking a key up in the map built from an initializer list
    that names no key twice yields exactly the value the list gives the
    key, and [at] throws [std::out_of_range] exactly for the keys the
    list does not name. *)
Theorem Map_of_list_find (key : Key) (init : list (Key * V)) :
  NoDup (map fst init) ->
  (forall v : V,
      Map.find comp key (Map.of_list comp init) = Some v <-> In (key, v) init)
  /\ (Map.at_ comp key (Map.of_list comp init) = Throw out_of_range
      <-> ~ In key (map fst init)).
Proof.
  intros Hnd.
  assert (Map.find comp key (Map.of_list comp init)
          = Map.first_entry comp key init) as H
    by (unfold Map.of_list; rewrite of_list_find_from; reflexivity).
  split.
  - intros v. rewrite H. apply first_entry_In, Hnd.
  - unfold Map.at_. rewrite H.
    destruct (Map.first_entry comp key init) as [v|] eqn:E.
    + split; [discriminate|]. intros Hnotin. elim Hnotin.
      apply first_entry_In in E; [|exact Hnd].
      apply in_map_iff. exists (key, v). split; [reflexivity|exact E].
    + split; [|reflexivity]. intros _ Hin.
      apply in_map_iff in Hin as ([k v] & Hk & Hin). simpl in Hk. subst k.
      apply first_entry_In in Hin; [|exact Hnd]. congruence.
Qed.

Lemma insert_comm_lt (k1 k2 : Key) (v1 v2 : V) (m : Map.Entries) :
  comp k1 k2 = true ->
  Map.insert comp k1 v1 (Map.insert comp k2 v2 m)
  = Map.insert comp k2 v2 (Map.insert comp k1 v1 m).
Proof.
  intros H12. pose proof (comp_antisym _ _ H12) as H21.
  induction m as [|[k v] m IH].
  - repeat (progress (cbn [Map.insert]; rewrite ?H21, ?H12)). reflexivity.
  - destruct (comp k k1) eqn:Ek1.
    + (* k < k1 < k2 *)
      pose proof (comp_trans _ _ _ Ek1 H12) as Ek2.
      repeat (progress (cbn [Map.insert]; rewrite ?Ek1, ?Ek2)).
      rewrite IH. reflexivity.
    + destruct (comp k1 k) eqn:E1k.
      * (* k1 < k *)
        destruct (comp k k2) eqn:Ek2; [|destruct (comp k2 k) eqn:E2k];
          repeat (progress (cbn [Map.insert];
                            rewrite ?H12, ?H21, ?Ek1, ?E1k, ?Ek2, ?E2k));
          reflexivity.
      * (* k1 is k *)
        pose proof (comp_total _ _ Ek1 E1k) as ->.
        repeat (progress (cbn [Map.insert]; rewrite ?H12, ?H21, ?comp_irrefl)).
        reflexivity.
Qed.

Lemma insert_comm (k1 k2 : Key) (v1 v2 : V) (m : Map.Entries) :
  k1 <> k2 ->
  Map.insert comp k1 v1 (Map.insert comp k2 v2 m)
  = Map.insert comp k2 v2 (Map.insert comp k1 v1 m).
Proof.
  intros Hne. destruct (comp k1 k2) eqn:E12.
  - apply insert_comm_lt, E12.
  - destruct (comp k2 k1) eqn:E21.
    + symmetry. apply insert_comm_lt, E21.
    + elim Hne. apply comp_total; assumption.
Qed.

Lemma of_list_permutation_from (init init' : list (Key * V)) :
  Permutation init init' ->
  NoDup (map fst init) ->
  forall m : Map.Entries,
    fold_left (fun m e => Map.insert comp (fst e) (snd e) m) init m
    = fold_left (fun m e => Map.insert comp (fst e) (snd e) m) init' m.
Proof.
  induction 1 as [|e l l' Hp IH|e1 e2 l|l1 l2 l3 Hp1 IH1 Hp2 IH2];
    intros Hnd m; simpl.
  - reflexivity.
  - apply IH. inversion Hnd; assumption.
  - f_equal. apply insert_comm.
    inversion Hnd as [|? ? Hnotin _]; subst.
    intros Heq. apply Hnotin. left. exact Heq.
  - rewrite IH1 by exact Hnd. apply IH2.
    apply (Permutation_NoDup (l := map fst l1)); [|exact Hnd].
    apply Permutation_map, Hp1.
Qed.

(** X18: the map built from an initializer list does not depend on the
    order in which the list names its entries, as long as no key is
    named twice. *)
Theorem Map_of_list_permutation (init init' : list (Key * V)) :
  Permutation init init' ->
  NoDup (map fst init) ->
  Map.of_list comp init = Map.of_list comp init'.
Proof.
  intros Hp Hnd. unfold Map.of_list.
  apply of_list_permutation_from; assumption.
Qed.

(** X19: [operator()] is idempotent: once it has returned a value for a
    key, the key is a member, and calling it again for the key, with
    whatever default, returns the same value and leaves the map as it
    is. *)
Theorem Map_call_idempotent (dflt : V) (key : Key) (d d' : V)
    (m m' : Map.Entries) (v : V) :
  Map.call comp dflt key d m = Ok (m', v) ->
  Map.hasMember comp key m' = true
  /\ Map.call comp dflt key d' m' = Ok (m', v).
Proof.
  unfold Map.call at 1.
  assert (forall x l, Map.find comp key l = Some x ->
                      Map.hasMember comp key l = true
                      /\ Map.call comp dflt key d' l = Ok (l, x)) as Hpresent.
  { intros x l Hf. unfold Map.call, Map.hasMember, Map.at_. rewrite Hf.
    split; reflexivity. }
  destruct (Map.hasMember comp key m) eqn:Hmem.
  - unfold Map.at_. destruct (Map.find comp key m) as [x|] eqn:Hf;
      [|discriminate].
    intros H. injection H as <- <-. apply Hpresent, Hf.
  - unfold Map.hasMember in Hmem.
    destruct (Map.find comp key m) as [x|] eqn:Hf; [discriminate|].
    pose proof (assign_subscript comp comp_irrefl dflt key d m Hf) as Ha.
    destruct (Map.subscript comp dflt key m) as [m1 r1]. simpl fst in Ha.
    intros H. injection H as <- <-. apply Hpresent.
    rewrite Ha. apply (subscript_find comp comp_irrefl), Hf.
Qed.

Lemma assign_find (key : Key) (d x : V) (m : Map.Entries) :
  Map.find comp key m = Some x ->
  Map.find comp key (Map.assign comp key d m) = Some d.
Proof.
  induction m as [|[k v] m IH]; simpl; [discriminate|].
  destruct (comp k key) eqn:E1; simpl.
  - rewrite E1. exact IH.
  - destruct (comp key k) eqn:E2; [discriminate|].
    intros _. simpl. rewrite E1, E2. reflexivity.
Qed.

Lemma assign_frame (key key' : Key) (d : V) (m : Map.Entries) :
  key' <> key ->
  Map.find comp key' (Map.assign comp key d m) = Map.find comp key' m.
Proof.
  intros Hne. induction m as [|[k v] m IH]; simpl; [reflexivity|].
  destruct (comp k key) eqn:E1; simpl.
  - rewrite IH. reflexivity.
  - destruct (comp key k) eqn:E2; [reflexivity|].
    pose proof (comp_total _ _ E1 E2) as ->. simpl.
    destruct (comp key key') eqn:E3; [reflexivity|].
    destruct (comp key' key) eqn:E4; [reflexivity|].
    elim Hne. apply comp_total; assumption.
Qed.

(** X23: after [m[key] = d], whether or not the key was there before,
    [at(key)] returns [d] and every other key is looked up as before. *)
Theorem Map_subscript_assign (dflt : V) (key : Key) (d : V)
    (m : Map.Entries) :
  Map.at_ comp key
    (Map.assign comp key d (fst (Map.subscript comp dflt key m)))
  = Ok d
  /\ (forall key' : Key,
        key' <> key ->
        Map.find comp key'
          (Map.assign comp key d (fst (Map.subscript comp dflt key m)))
        = Map.find comp key' m).
Proof.
  assert (exists x, Map.find comp key
                      (fst (Map.subscript comp dflt key m)) = Some x)
    as [x Hx].
  { destruct (Map.find comp key m) as [x|] eqn:Hf.
    - exists x. rewrite (subscript_present comp dflt key m x Hf). exact Hf.
    - exists dflt. apply (subscript_find comp comp_irrefl), Hf. }
  split.
  - unfold Map.at_. rewrite (assign_find key d x _ Hx). reflexivity.
  - intros key' Hne. rewrite assign_frame by exact Hne.
    apply (subscript_frame comp comp_irrefl comp_trans).
    destruct (comp key key') eqn:E1; [left; reflexivity|].
    destruct (comp key' key) eqn:E2; [right; reflexivity|].
    elim Hne. symmetry. apply comp_total; assumption.
Qed.

End MapOrder.

(** ** Equality of maps, construction from a tag *)


(** X21: [PropVal(Type)] has the tag it was asked for and holds
    nothing: a range loop over it visits nothing, whatever the tag, and
    the boolean is false, the integer 0, the real +0.0. That real is
    not normalised: it is a real-tagged whole number, and it is unequal
    to the value made from the double 0.0, which is the integer 0. *)
Theorem PropVal_type_spec (Name_default : Name) (t : PropType) :
  type (PropVal_type Name_default t) = t
  /\ (forall fuel : nat,
        range_for fuel (PropVal_type Name_default t) = Some [])
  /\ asBool (PropVal_type Name_default BOOL) = Ok false
  /\ asLong64 (PropVal_type Name_default INTEGER) = Ok 0
  /\ asDouble (PropVal_type Name_default REAL) = Ok (S754_zero false)
  /\ asArray (PropVal_type Name_default ARRAY) = Ok []
  /\ asIndexed (PropVal_type Name_default INDEXED) = Ok []
  /\ asStruc (PropVal_type Name_default STRUC) = Ok []
  /\ PropVal_double (S754_zero false) = VInteger 0
  /\ equals (PropVal_type Name_default REAL) (PropVal_double (S754_zero false))
     = Some false.
Proof.
  split; [destruct t; reflexivity|].
  split; [intros fuel; destruct t; destruct fuel; reflexivity|].
  repeat split; reflexivity.
Qed.

Lemma insert_In {Key V : Type} (comp : Key -> Key -> bool)
    (key : Key) (val : V) (m : Map.Entries) (e : Key * V) :
  In e (Map.insert comp key val m) -> e = (key, val) \/ In e m.
Proof.
  induction m as [|[k v] m IH]; simpl.
  - intros [H|[]]. left. symmetry. exact H.
  - destruct (comp k key).
    + intros [H|H]; [right; left; exact H|].
      destruct (IH H) as [H'|H']; [left; exact H'|right; right; exact H'].
    + destruct (comp key k).
      * intros [H|H]; [left; symmetry; exact H|right; exact H].
      * intros H. right. exact H.
Qed.

Lemma of_list_In {Key V : Type} (comp : Key -> Key -> bool)
    (init : list (Key * V)) (e : Key * V) :
  In e (Map.of_list comp init) -> In e init.
Proof.
  unfold Map.of_list.
  assert (forall m,
             In e (fold_left (fun m e => Map.insert comp (fst e) (snd e) m)
                     init m) ->
             In e m \/ In e init) as H.
  { induction init as [|[k v] init IH]; intros m; simpl.
    - intros H. left. exact H.
    - intros H. apply IH in H as [H|H]; [|right; right; exact H].
      apply insert_In in H as [H|H]; [right; left; symmetry; exact H|left; exact H]. }
  intros Hin. apply H in Hin as [[]|Hin]. exact Hin.
Qed.

Lemma equals_inline_refl (v : PropVal) :
  compared_inline v = true -> nan_free v = true -> equals v v = Some true.
Proof.
  destruct v as [ |b|i|r|n|s|a|m|o]; try discriminate; intros _ Hnan; simpl.
  - reflexivity.
  - rewrite eqb_reflx. reflexivity.
  - rewrite Z.eqb_refl. reflexivity.
  - rewrite Double_eqb_refl; [reflexivity|]. intros ->. discriminate Hnan.
Qed.

(** X22: two integer-keyed maps built from initializer lists that name
    the same entries in different orders, no key twice, compare equal
    with [Map::operator==], in either direction, when the values are
    absent, boolean, integer or real values and none is a NaN. *)
Theorem indexed_init_order (init init' : list (Z * PropVal)) :
  Permutation init init' ->
  NoDup (map fst init) ->
  Forall (fun e => compared_inline (snd e) = true
                   /\ nan_free (snd e) = true) init ->
  Map_eq Z.eqb (Map.of_list Z.ltb init) (Map.of_list Z.ltb init') = Some true
  /\ Map_eq Z.eqb (Map.of_list Z.ltb init') (Map.of_list Z.ltb init)
     = Some true.
Proof.
  intros Hp Hnd Hvals.
  assert (Map.of_list Z.ltb init' = Map.of_list Z.ltb init) as ->.
  { unfold Map.of_list. symmetry.
    apply (of_list_permutation_from Z.ltb Z.ltb_irrefl); try assumption.
    - intros a b c H1 H2. apply Z.ltb_lt in H1, H2. apply Z.ltb_lt. lia.
    - intros a b H1 H2. apply Z.ltb_ge in H1, H2. lia. }
  assert (Map_eq Z.eqb (Map.of_list Z.ltb init) (Map.of_list Z.ltb init)
          = Some true) as H; [|split; exact H].
  unfold Map_eq. apply mismatch_at_end_refl.
  apply Forall_forall. intros [k v] Hin.
  apply of_list_In in Hin. rewrite Forall_forall in Hvals.
  destruct (Hvals _ Hin) as [Hinl Hnan]. simpl in Hinl, Hnan.
  unfold Entry_eq. simpl. rewrite Z.eqb_refl.
  apply equals_inline_refl; assumption.
Qed.

End Props.

Arguments VNone {Name}.
Arguments VBool {Name} b.
Arguments VInteger {Name} i.
Arguments VReal {Name} r.
Arguments VName {Name} n.
Arguments VString {Name} s.
Arguments VArray {Name} a.
Arguments VIndexed {Name} m.
Arguments VStruc {Name} o.
Arguments equals {Name} Name_eqb v other.
Arguments Array_eq {Name} Name_eqb a other.
Arguments Map_eq {Name} Name_eqb {Key} key_eqb m other.

(** * The properties at concrete values

    Symbols are taken to be their strings, compared as strings; the cast
    of a double that no [int64_t] holds yields the smallest [int64_t],
    as the conversion instruction of x86-64 does. *)

(** [PropVal(3.0)] is the integer 3. *)
Lemma PropVal_double_spec_witness :
  PropVal_double string (fun _ => int64_min)
    (S754_finite false 6755399441055744 (-51))
  = VInteger 3.
Proof.
  exact (proj1 (proj2 (PropVal_double_spec string (fun _ => int64_min)
                         (fun _ => eq_refl)))
           (S754_finite false 6755399441055744 (-51)) eq_refl eq_refl).
Defined.

(** C2, refuted as stated: the value made from a NaN is a real that is
    not equal to itself. *)
Lemma equals_nan_irreflexive :
  PropVal_double string (fun _ => int64_min) S754_nan = VReal S754_nan
  /\ equals String.eqb
       (PropVal_double string (fun _ => int64_min) S754_nan)
       (PropVal_double string (fun _ => int64_min) S754_nan)
     = Some false
  /\ ~ (forall v : PropVal string, equals String.eqb v v = Some true).
Proof.
  split; [reflexivity|]. split; [reflexivity|].
  intros H. specialize (H (VReal S754_nan)). discriminate H.
Qed.

(** An array of an integer and a boolean equals itself. *)
Lemma equals_refl_sym_witness :
  equals String.eqb (VArray [VInteger 1; VBool true])
                    (VArray [VInteger 1; VBool true]) = Some true.
Proof.
  exact (proj1 (equals_refl_sym string String.eqb String.eqb_refl
                  String.eqb_sym)
           (VArray [VInteger 1; VBool true]) eq_refl).
Defined.

(** C5, refuted as stated: a NaN has the bits of itself and still does
    not compare equal to itself. *)
Lemma equals_real_not_bitwise :
  equals String.eqb (VReal S754_nan) (VReal S754_nan) = Some false
  /\ ~ (forall r r' : spec_float,
          equals String.eqb (VReal r) (VReal r') = Some true <-> r = r').
Proof.
  split; [reflexivity|].
  intros H. destruct (H S754_nan S754_nan) as [_ H']. discriminate (H' eq_refl).
Qed.

(** The real 1.5 equals exactly the real 1.5. *)
Lemma equals_real_spec_witness :
  equals String.eqb (VReal Double.one_and_a_half)
                    (VReal Double.one_and_a_half) = Some true
  <-> Double.one_and_a_half = Double.one_and_a_half.
Proof.
  apply (proj1 (proj2 (proj2 (equals_real_spec string String.eqb
                                Double.one_and_a_half)))).
  - discriminate.
  - left. reflexivity.
Defined.

(** [asBool] on the integer 2. *)
Lemma asBool_spec_witness :
  asBool string (VInteger 2) = Throw bad_cast.
Proof.
  apply (proj1 (proj2 (proj2 (proj2 (asBool_spec string))))); discriminate.
Defined.

(** [asInt] on 2^40, which 32 bits do not hold, and on -5, which they do. *)
Lemma asInt_asLong64_spec_witness :
  asInt string (VInteger (2 ^ 40)) = Throw bad_cast
  /\ asInt string (VInteger (-5)) = Ok (-5).
Proof.
  destruct (proj1 (asInt_asLong64_spec string) (2 ^ 40)) as (_ & Hthrow & _).
  destruct (proj1 (asInt_asLong64_spec string) (-5)) as (Hok & _ & _).
  split.
  - apply Hthrow. discriminate.
  - apply Hok. reflexivity.
Defined.

(** Looking up 2 in the map that holds only 1. *)
Lemma Map_lookup_spec_witness :
  Map.at_ Z.ltb 2 [(1, VInteger (Name := string) 10)] = Throw out_of_range
  /\ Map.subscript Z.ltb VNone 2 [(1, VInteger (Name := string) 10)]
     = ([(1, VInteger 10); (2, VNone)], VNone)
  /\ Map.call Z.ltb VNone 2 (VBool true) [(1, VInteger (Name := string) 10)]
     = Ok ([(1, VInteger 10); (2, VBool true)], VBool true).
Proof.
  assert (forall a b c, (a <? b) = true -> (b <? c) = true -> (a <? c) = true)
    as Htrans.
  { intros a b c H1 H2. apply Z.ltb_lt in H1, H2. apply Z.ltb_lt. lia. }
  destruct (proj1 (Map_lookup_spec Z.ltb Z.ltb_irrefl Htrans
                     (VNone (Name := string)) 2 (VBool true)
                     [(1, VInteger 10)]) eq_refl)
    as (_ & Hat & _).
  split; [exact Hat|]. split; reflexivity.
Defined.

(** Iterating over the integer 5 visits nothing. *)
Lemma begin_end_spec_witness :
  begin_ string (VInteger 5) = end_ string (VInteger 5)
  /\ range_for string 1 (VInteger 5) = Some [].
Proof.
  destruct (proj1 (begin_end_spec string (VInteger 5)))
    as (Hb & He & _ & Hloop).
  - discriminate.
  - split.
    + rewrite Hb, He. reflexivity.
    + apply Hloop.
Defined.

(** [isReal] on the integer 7. *)
Lemma isReal_integer_or_real_witness :
  isReal string (VInteger 7) = true.
Proof.
  apply (proj1 (isReal_integer_or_real string (VInteger 7))).
  left. reflexivity.
Defined.

(** * The further properties at concrete values *)

Lemma Zltb_trans (a b c : Z) :
  (a <? b) = true -> (b <? c) = true -> (a <? c) = true.
Proof. intros H1 H2. apply Z.ltb_lt in H1, H2. apply Z.ltb_lt. lia. Qed.

Lemma Zltb_total (a b : Z) : (a <? b) = false -> (b <? a) = false -> a = b.
Proof. intros H1 H2. apply Z.ltb_ge in H1, H2. lia. Qed.

(** [asBool] accepts the integer 1, so [asInt] returns 1. *)
Lemma accessors_widen_witness : asInt string (VInteger 1) = Ok 1.
Proof.
  exact (proj1 (accessors_widen string (VInteger 1)) true eq_refl).
Defined.

(** [isReal] holds of the integer 3, so [asDouble] reads it. *)
Lemma accessor_tags_witness :
  exists d, asDouble string (VInteger 3) = Ok d.
Proof.
  apply (proj1 (proj2 (accessor_tags string (VInteger 3)))).
  left. reflexivity.
Defined.

(** The boolean true equals the integer 1. *)
Lemma equals_as_long64_witness :
  equals String.eqb (VBool true) (VInteger 1) = Some true.
Proof.
  exact (equals_as_long64 string String.eqb (VBool true) (VInteger 1) 1 1
           eq_refl eq_refl).
Defined.

(** The boolean true equals the integer 1, a value of another tag. *)
Lemma equals_inline_tags_witness :
  type string (VInteger 1) = type string (VBool true)
  \/ (type string (VBool true) = BOOL /\ type string (VInteger 1) = INTEGER)
  \/ (type string (VBool true) = INTEGER /\ type string (VInteger 1) = BOOL).
Proof.
  apply (proj2 (equals_inline_tags string String.eqb (VBool true)
                  (VInteger 1) eq_refl)).
  reflexivity.
Defined.

(** From true == 1 and 1 == true follows true == true. *)
Lemma equals_inline_trans_witness :
  equals String.eqb (VBool true) (VBool true) = Some true.
Proof.
  exact (equals_inline_trans string String.eqb (VBool true) (VInteger 1)
           (VBool true) eq_refl eq_refl eq_refl).
Defined.

(** 1.0 is stored as an integer and read back as a double equal to 1.0. *)
Lemma asDouble_PropVal_double_witness :
  exists d,
    asDouble string (PropVal_double string (fun _ => int64_min) Double.one)
    = Ok d
    /\ Double.eqb d Double.one = true.
Proof.
  apply asDouble_PropVal_double. discriminate.
Defined.

(** The integer 5 survives the way through a double. *)
Lemma PropVal_double_asDouble_witness :
  exists d,
    asDouble string (VInteger 5) = Ok d
    /\ PropVal_double string (fun _ => int64_min) d = VInteger 5.
Proof.
  apply PropVal_double_asDouble. lia.
Defined.

(** [PropVal(3.0) == PropVal(int64 3)]. *)
Lemma equals_double_integer_witness :
  equals String.eqb
    (PropVal_double string (fun _ => int64_min)
       (S754_finite false 6755399441055744 (-51)))
    (PropVal_int64 string 3)
  = Some true.
Proof.
  exact (equals_double_integer string String.eqb (fun _ => int64_min)
           (S754_finite false 6755399441055744 (-51)) 3 eq_refl eq_refl).
Defined.

(** [at(1)] on an array of one element. *)
Lemma Array_at_bounds_witness :
  Array_at string [VInteger 1] 1 = Throw out_of_range.
Proof.
  apply (proj1 (Array_at_bounds string [VInteger 1] 1)). simpl. lia.
Defined.

(** The element at 0 stays where it is when another is pushed. *)
Lemma Array_push_back_spec_witness :
  Array_at string (Array_push_back string [VInteger 1] (VBool true)) 0
  = Array_at string [VInteger 1] 0.
Proof.
  apply (proj2 (proj2 (proj2 (proj2
           (Array_push_back_spec string [VInteger 1] (VBool true)))))).
  simpl. lia.
Defined.

(** Growing an array of one element to three. *)
Lemma Array_resize_spec_witness :
  Array_at string (Array_resize string [VInteger 1] 3) 2 = Ok VNone.
Proof.
  apply (proj2 (proj2 (Array_resize_spec string [VInteger 1] 3)));
    simpl; lia.
Defined.

(** Iterating over the array built from the range 1, 2. *)
Lemma array_range_spec_witness :
  range_for string 2 (array_init string [VInteger 1; VInteger 2])
  = Some [VInteger 1; VInteger 2].
Proof.
  apply (proj2 (proj2 (array_range_spec string EmptyString
                         [VInteger 1; VInteger 2]))).
  simpl. lia.
Defined.


(** [operator()] on a missing key makes the map one larger. *)
Lemma Map_size_spec_witness :
  Map.size [(1, VInteger (Name := string) 10); (2, VBool true)] = 2%nat.
Proof.
  exact (proj2 (Map_size_spec Z.ltb (VNone (Name := string)) 2 (VBool true)
                  [(1, VInteger 10)])
           [(1, VInteger 10); (2, VBool true)] (VBool true) eq_refl).
Defined.

(** [operator[]] on the ordered map {1, 3} with the key 2. *)
Lemma Map_sorted_invariant_witness :
  Map.sorted Z.ltb
    (fst (Map.subscript Z.ltb (VNone (Name := string)) 2
            [(1, VInteger 10); (3, VInteger 30)])).
Proof.
  apply (proj2 (Map_sorted_invariant Z.ltb Z.ltb_irrefl Zltb_trans
                  (VNone (Name := string)) 2 VNone
                  [(1, VInteger 10); (3, VInteger 30)] [])).
  repeat constructor.
Defined.

(** Looking up 3 in the ordered map {1, 3}. *)
Lemma Map_find_In_witness :
  Map.find Z.ltb 3 [(1, VInteger (Name := string) 10); (3, VInteger 30)]
  = Some (VInteger 30).
Proof.
  apply (proj1 (Map_find_In Z.ltb Z.ltb_irrefl Zltb_trans Zltb_total 3
                  [(1, VInteger 10); (3, VInteger 30)]
                  ltac:(repeat constructor))).
  right. left. reflexivity.
Defined.

(** Looking up 1 in the map built from {2: 20, 1: 10}. *)
Lemma Map_of_list_find_witness :
  Map.find Z.ltb 1
    (Map.of_list Z.ltb [(2, VInteger (Name := string) 20); (1, VInteger 10)])
  = Some (VInteger 10).
Proof.
  apply (proj1 (Map_of_list_find Z.ltb Z.ltb_irrefl Zltb_trans Zltb_total 1
                  [(2, VInteger 20); (1, VInteger 10)]
                  ltac:(repeat constructor; simpl; intuition discriminate))).
  right. left. reflexivity.
Defined.

(** {1: 10, 2: 20} and {2: 20, 1: 10} are the same map. *)
Lemma Map_of_list_permutation_witness :
  Map.of_list Z.ltb [(1, VInteger (Name := string) 10); (2, VInteger 20)]
  = Map.of_list Z.ltb [(2, VInteger 20); (1, VInteger 10)].
Proof.
  apply (Map_of_list_permutation Z.ltb Z.ltb_irrefl Zltb_trans Zltb_total).
  - apply perm_swap.
  - repeat constructor; simpl; intuition discriminate.
Defined.

(** Asking twice for the key 2 with different defaults. *)
Lemma Map_call_idempotent_witness :
  Map.call Z.ltb (VNone (Name := string)) 2 (VInteger 7)
    [(1, VInteger 10); (2, VBool true)]
  = Ok ([(1, VInteger 10); (2, VBool true)], VBool true).
Proof.
  exact (proj2 (Map_call_idempotent Z.ltb Z.ltb_irrefl
                  (VNone (Name := string)) 2 (VBool true) (VInteger 7)
                  [(1, VInteger 10)] [(1, VInteger 10); (2, VBool true)]
                  (VBool true) eq_refl)).
Defined.


(** The maps built from {1: 10, 2: 2.5} in both orders are equal. *)
Lemma indexed_init_order_witness :
  Map_eq String.eqb Z.eqb
    (Map.of_list Z.ltb
       [(1, VInteger 10); (2, VReal (S754_finite false 5629499534213120 (-51)))])
    (Map.of_list Z.ltb
       [(2, VReal (S754_finite false 5629499534213120 (-51))); (1, VInteger 10)])
  = Some true.
Proof.
  apply (proj1 (indexed_init_order string String.eqb
                  [(1, VInteger 10);
                   (2, VReal (S754_finite false 5629499534213120 (-51)))]
                  [(2, VReal (S754_finite false 5629499534213120 (-51)));
                   (1, VInteger 10)]
                  (perm_swap _ _ _)
                  ltac:(repeat constructor; simpl; intuition discriminate)
                  ltac:(repeat constructor))).
Defined.

(** [m[3] = true] on the map {1, 3}: the key 1 is looked up as before. *)
Lemma Map_subscript_assign_witness :
  Map.find Z.ltb 1
    (Map.assign Z.ltb 3 (VBool true)
       (fst (Map.subscript Z.ltb (VNone (Name := string)) 3
               [(1, VInteger 10); (3, VInteger 30)])))
  = Map.find Z.ltb 1 [(1, VInteger 10); (3, VInteger 30)].
Proof.
  apply (proj2 (Map_subscript_assign Z.ltb Z.ltb_irrefl Zltb_trans Zltb_total
                  (VNone (Name := string)) 3 (VBool true)
                  [(1, VInteger 10); (3, VInteger 30)])).
  discriminate.
Defined.
